(** * The automerge observables of JupyterLab: model and properties

    A shallow embedding of the replicated-document adapters found under
    [packages/observables/src]: the byte-level [combine], the reentrancy gate
    [createLock], the map, string and list adapters and the remote-message
    listener of [AutomergeModelDB].

    JavaScript values are an inductive type, objects are finite maps from
    property names to values, arrays are lists, exceptions are an explicit
    result type, and the mutable fields of a class are a state record threaded
    through a state-and-exception monad.  The object behind the map adapter,
    which is read and written at any name, comes with its prototype.  Signals
    are modelled by the log of the arguments they were emitted with. *)

From stdpp Require Import gmap strings list fin_maps.
From Stdlib Require Import ZArith NArith Lia.
From Stdlib.Strings Require Import Ascii Byte.

#[local] Set Warnings "-register-all".
#[local] Open Scope Z_scope.

(* ===================================================================== *)
(** * Part I: definitions                                                 *)
(* ===================================================================== *)

(** ** JavaScript values *)

(** A JavaScript string is a sequence of UTF-16 code units. *)
Definition jsstring : Type := list N.

(** A string literal of the source, one code unit per (ASCII) character. *)
Fixpoint utf16 (s : string) : jsstring :=
  match s with
  | EmptyString => []
  | String c rest => N_of_ascii c :: utf16 rest
  end.

(** Numbers are the integer-valued ones together with [NaN]; objects map
    property names to values; [undefined] is a value of its own. *)
Inductive JSValue : Type :=
| JUndefined
| JNull
| JBool (b : bool)
| JNum (n : Z)
| JNaN
| JStr (s : jsstring)
| JArr (l : list JSValue)
| JObj (o : gmap string JSValue).

(** [v === undefined] *)
Definition is_undefined (v : JSValue) : bool :=
  match v with JUndefined => true | _ => false end.

(** The boolean a value converts to in a condition ([ToBoolean]). *)
Definition truthy (v : JSValue) : bool :=
  match v with
  | JUndefined | JNull | JNaN => false
  | JBool b => b
  | JNum n => negb (n =? 0)
  | JStr s => match s with [] => false | _ => true end
  | JArr _ | JObj _ => true
  end.

(** Property read [o[key]] by the own properties of an object of a
    document, as the listener reads [doc.users[actorId]] and the paths of the
    database are followed: a missing property reads as [undefined].  (What a
    prototype adds is in [Object_get], below.) *)
Definition prop (o : gmap string JSValue) (key : string) : JSValue :=
  default JUndefined (o !! key).

(** [Object.keys(o)]; the keys come in the order of the finite map, and no
    property below depends on their order. *)
Definition Object_keys (o : gmap string JSValue) : list string :=
  (map_to_list o).*1.

(** [first === second] on primitive values; two aggregates are compared by
    reference in JavaScript, which the value model cannot see, and are taken
    to be distinct. *)
Definition strict_equals (first second : JSValue) : bool :=
  match first, second with
  | JUndefined, JUndefined | JNull, JNull => true
  | JBool a, JBool b => bool_decide (a = b)
  | JNum a, JNum b => a =? b
  | JStr a, JStr b => bool_decide (a = b)
  | _, _ => false
  end.

(** *** Ordinary objects and their prototype *)

(** The prototype of an ordinary object: [Object.prototype], which an
    object literal starts with; [null]; or the object that an assignment to
    [__proto__] put there. *)
Inductive Prototype : Type :=
| Object_prototype
| null_prototype
| value_prototype (p : JSValue).

(** An ordinary object used as a map from names to values: its own
    properties and its prototype. *)
Record OrdinaryObject : Type := {
  own : gmap string JSValue;
  proto : Prototype
}.

(** The object literals [{}] and [{k: v}], the definition of an own
    property, and the lookup of one. *)
#[global] Instance OrdinaryObject_empty : Empty OrdinaryObject :=
  {| own := ∅; proto := Object_prototype |}.
#[global] Instance OrdinaryObject_singleton
  : SingletonM string JSValue OrdinaryObject :=
  λ key value, {| own := {[key := value]}; proto := Object_prototype |}.
#[global] Instance OrdinaryObject_insert
  : Insert string JSValue OrdinaryObject :=
  λ key value o, {| own := <[key := value]> (own o); proto := proto o |}.
#[global] Instance OrdinaryObject_lookup
  : Lookup string JSValue OrdinaryObject :=
  λ key o, own o !! key.

(** What the engine gives to a property read that finds no own property:
    for an object whose prototype is [Object.prototype], the methods of
    [Object.prototype] ([constructor], [toString], [hasOwnProperty], ...),
    [Object.prototype] itself at [__proto__], and [undefined] at the other
    names; for an object whose prototype is the object [p], what [p] and
    its own prototypes give. *)
Class Realm : Type := {
  Object_prototype_get : string → JSValue;
  prototype_get : JSValue → string → JSValue
}.

Section ordinary_objects.
Context `{Realm}.

Definition inherited (prototype : Prototype) (key : string) : JSValue :=
  match prototype with
  | Object_prototype => Object_prototype_get key
  | null_prototype => JUndefined
  | value_prototype p => prototype_get p key
  end.

(** Property read [o[key]] on an ordinary object: the own property, and
    what the prototype gives when there is none. *)
Definition Object_get (o : OrdinaryObject) (key : string) : JSValue :=
  match o !! key with
  | Some value => value
  | None => inherited (proto o) key
  end.

(** Whether an assignment to [__proto__] that finds no own property
    reaches the accessor of [Object.prototype]: not when the prototype is
    [null], nor when the prototype has a property of that name itself. *)
Definition reaches_accessor (prototype : Prototype) : bool :=
  match prototype with
  | Object_prototype => true
  | null_prototype => false
  | value_prototype (JObj p) => bool_decide (p !! "__proto__" = None)
  | value_prototype _ => true
  end.

(** The assignment [o[key] = value] on an ordinary object.  It writes the
    own property, creating it when there is none; except at [__proto__],
    where it goes to the accessor of [Object.prototype]: an object or
    [null] becomes the prototype, and any other value is ignored. *)
Definition Object_set (o : OrdinaryObject) (key : string) (value : JSValue)
  : OrdinaryObject :=
  match o !! key with
  | Some _ => <[key := value]> o
  | None =>
    if bool_decide (key = "__proto__") && reaches_accessor (proto o) then
      match value with
      | JObj _ | JArr _ => {| own := own o; proto := value_prototype value |}
      | JNull => {| own := own o; proto := null_prototype |}
      | _ => o
      end
    else <[key := value]> o
  end.

End ordinary_objects.

(** ** Exceptions and the state monad *)

Inductive JSError : Type :=
| Error (message : string)
| TypeError
| RangeError
| PathTypeConflictError.

Inductive Res (A : Type) : Type :=
| Ok (a : A)
| Throw (e : JSError).
Arguments Ok {A} a.
Arguments Throw {A} e.

#[global] Instance Res_ret : MRet Res := λ A a, Ok a.
#[global] Instance Res_bind : MBind Res := λ A B f r,
  match r with Ok a => f a | Throw e => Throw e end.
#[global] Instance Res_fmap : FMap Res := λ A B f r,
  match r with Ok a => Ok (f a) | Throw e => Throw e end.

(** A method of an object with mutable state [W]: it returns or throws, and
    leaves a new state either way. *)
Definition M (W A : Type) : Type := W → Res A * W.

#[global] Instance M_ret {W} : MRet (M W) := λ A a w, (Ok a, w).
#[global] Instance M_bind {W} : MBind (M W) := λ A B f m w,
  match m w with
  | (Ok a, w') => f a w'
  | (Throw e, w') => (Throw e, w')
  end.

#[global] Instance M_fmap {W} : FMap (M W) := λ A B f m w,
  let '(r, w') := m w in (f <$> r, w').

Definition throw {W A} (e : JSError) : M W A := λ w, (Throw e, w).
Definition gets {W A} (f : W → A) : M W A := λ w, (Ok (f w), w).
Definition modify {W} (f : W → W) : M W unit := λ w, (Ok tt, f w).

(** [try { a } finally { f }] where [f] cannot throw. *)
Definition try_finally {W A} (a : M W A) (f : W → W) : M W A := λ w,
  let '(r, w') := a w in (r, f w').

(** ** [combine] (ammodeldb.ts) *)

Module Uint8Array.
(** [new Uint8Array(length)]: zero-filled. *)
Definition new (length : nat) : list byte := replicate length x00.

(** [target.set(source, offset)]: copies [source] into [target] starting at
    [offset]; a source that does not fit is a [RangeError]. *)
Definition set (target source : list byte) (offset : nat) : Res (list byte) :=
  if decide (offset + length source ≤ length target)%nat
  then Ok (take offset target ++ source ++ drop (offset + length source) target)
  else Throw RangeError.
End Uint8Array.

Definition combine (changes : list (list byte)) : Res (list byte) :=
  (* Get the total length of all arrays. *)
  let length := foldl (λ length item, (length + List.length item)%nat) 0%nat changes in
  (* Create a new array with total length and merge all source arrays. *)
  let combined := Uint8Array.new length in
  let offset := 0%nat in
  '(combined, offset) ← foldl
      (λ acc change,
         '(combined, offset) ← acc;
         combined ← Uint8Array.set combined change offset;
         Ok (combined, (offset + List.length change)%nat))
      (Ok (combined, offset)) changes;
  Ok combined.

(** ** [createLock] (ammodeldb.ts) *)

(** The variable [lock] captured by the closure lives in the program state;
    [true] means that the gate is free. *)
Class Gated (W : Type) : Type := {
  lock : W → bool;
  set_lock : bool → W → W;
  lock_set_lock : ∀ b w, lock (set_lock b w) = b;
  set_lock_set_lock : ∀ b c w, set_lock b (set_lock c w) = set_lock b w;
  set_lock_lock : ∀ w, set_lock (lock w) w = w
}.

(** The function returned by [createLock].  The actions of the source return
    nothing and write to captured variables; here an action returns what it
    wrote, and the gate returns [None] when it ran nothing.  [b] is [None]
    for an [undefined] second argument. *)
Definition createLock `{Gated W} {A} (a : M W A) (b : option (M W A))
  : M W (option A) := λ w,
  if lock w then
    (* lock = false; try { a(); } finally { lock = true; } *)
    try_finally (λ w, (Some <$> a) (set_lock false w)) (set_lock true) w
  else
    match b with
    | Some b => (Some <$> b) w
    | None => (Ok None, w)
    end.

(** ** [AutomergeMap] (automergemap.ts) *)

Module IObservableMap.

Inductive ChangeType : Type := add | remove | change.

Record IChangedArgs : Type := {
  type : ChangeType;
  key : string;
  oldValue : JSValue;
  newValue : JSValue
}.

End IObservableMap.

Module AutomergeMap.

(** What the methods read and write: the object [_amModelDB.selections] and
    the arguments the signal [_changed] was emitted with, oldest first. *)
Record State : Type := {
  selections : OrdinaryObject;
  changed : list IObservableMap.IChangedArgs
}.

Section methods.
Context `{Realm}.

(** [this._changed.emit(args)] *)
Definition emit (args : IObservableMap.IChangedArgs) : M State unit :=
  modify (λ st, {| selections := selections st; changed := changed st ++ [args] |}).

(** The assignment expression [this._amModelDB.selections[key] = value]; its
    own value is the value assigned. *)
Definition assign (key : string) (value : JSValue) : M State JSValue := λ st,
  (Ok value, {| selections := Object_set (selections st) key value;
                changed := changed st |}).

Definition set (itemCmp : JSValue → JSValue → bool) (key : string) (value : JSValue)
  : M State JSValue :=
  oldVal ← gets (λ st, Object_get (selections st) key);
  if is_undefined value then
    throw (Error "Cannot set an undefined value, use remove")
  else
    (* Bail if the value does not change. *)
    if negb (is_undefined oldVal) && itemCmp oldVal value then
      mret oldVal
    else
      _ ← assign key value;
      _ ← emit {| IObservableMap.type :=
                    if truthy oldVal then IObservableMap.change
                    else IObservableMap.add;
                  IObservableMap.key := key;
                  IObservableMap.oldValue := oldVal;
                  IObservableMap.newValue := value |};
      mret oldVal.

Definition get (key : string) (st : State) : JSValue :=
  Object_get (selections st) key.

Definition has (key : string) (st : State) : bool :=
  if truthy (Object_get (selections st) key) then true else false.

(** [selections] is always there, so that the alternative [[]] of the
    source is never taken; [Object.keys] and [Object.values] list the own
    properties. *)
Definition keys (st : State) : list string :=
  Object_keys (own (selections st)).

Definition values (st : State) : list JSValue :=
  (map_to_list (own (selections st))).*2.

Definition delete (key : string) : M State JSValue :=
  oldVal ← gets (λ st, Object_get (selections st) key);
  (* TODO Fix Me *)
  removed ← assign key JUndefined;
  _ ← (if truthy removed then
         emit {| IObservableMap.type := IObservableMap.remove;
                 IObservableMap.key := key;
                 IObservableMap.oldValue := oldVal;
                 IObservableMap.newValue := JUndefined |}
       else mret tt);
  mret oldVal.

(** [for (let i = 0; i < keyList.length; i++) { this.delete(keyList[i]); }] *)
Fixpoint clear_loop (keyList : list string) : M State unit :=
  match keyList with
  | [] => mret tt
  | key :: keyList => _ ← delete key; clear_loop keyList
  end.

Definition clear : M State unit :=
  (* Delete one by one to emit the correct signals. *)
  keyList ← gets keys;
  clear_loop keyList.

End methods.

End AutomergeMap.

(** ** [AutomergeJSON] (automergejson.ts) *)

Module AutomergeJSON.

(** [toJSON()], over the methods [keys] and [get] of the map; [deepCopy] is
    [JSONExt.deepCopy] of @lumino/coreutils, and [out], made by
    [Object.create(null)], has no prototype and so only own properties. *)
Definition toJSON `{Realm} (deepCopy : JSValue → JSValue)
    (st : AutomergeMap.State) : gmap string JSValue :=
  let out : gmap string JSValue := ∅ in
  let keys := AutomergeMap.keys st in
  foldl (λ out key,
           let value := AutomergeMap.get key st in
           if negb (is_undefined value) then <[key := deepCopy value]> out
           else out)
        out keys.

End AutomergeJSON.

(** ** [AutomergeString] (second unit of ammodeldb.ts) *)

(** *** What the adapter uses of JavaScript strings and of [Automerge.Text] *)

Definition is_high_surrogate (u : N) : bool :=
  ((0xD800 <=? u) && (u <=? 0xDBFF))%N.

Definition is_low_surrogate (u : N) : bool :=
  ((0xDC00 <=? u) && (u <=? 0xDFFF))%N.

Definition is_surrogate (u : N) : bool :=
  ((0xD800 <=? u) && (u <=? 0xDFFF))%N.

(** No code unit of the string is a surrogate: every character is one unit. *)
Definition no_surrogates (s : jsstring) : Prop :=
  Forall (λ u, is_surrogate u = false) s.

(** The spread [...text] of a string: the string iterator yields one string
    per code point, so a high surrogate followed by a low surrogate comes out
    as one two-unit string. *)
Fixpoint spread (text : jsstring) : list jsstring :=
  match text with
  | [] => []
  | u :: rest =>
    match rest with
    | v :: rest' =>
      if is_high_surrogate u && is_low_surrogate v
      then [u; v] :: spread rest'
      else [u] :: spread rest
    | [] => [[u]]
    end
  end.

(** [s.slice(start, end)]: negative positions count from the end, and both
    positions are clamped to the string. *)
Definition String_slice (s : jsstring) (start end_ : Z) : jsstring :=
  let len := Z.of_nat (length s) in
  let from := if start <? 0 then Z.max (len + start) 0 else Z.min start len in
  let to := if end_ <? 0 then Z.max (len + end_) 0 else Z.min end_ len in
  take (Z.to_nat (to - from)) (drop (Z.to_nat from) s).

(** What Automerge keeps of a string that goes into a change: the change is
    encoded as UTF-8, in which a surrogate that is not one of a pair comes
    out as U+FFFD. *)
Fixpoint stored (s : jsstring) : jsstring :=
  match s with
  | [] => []
  | u :: rest =>
    match rest with
    | v :: rest' =>
      if is_high_surrogate u && is_low_surrogate v
      then u :: v :: stored rest'
      else (if is_surrogate u then 0xFFFD%N else u) :: stored rest
    | [] => [if is_surrogate u then 0xFFFD%N else u]
    end
  end.

Module Text.

(** The elements of an [Automerge.Text]: each is a string. *)
Definition t : Type := list jsstring.

(** [text.toString()]: the elements joined. *)
Definition toString (elems : t) : jsstring := concat elems.

(** [text.insertAt(index, ...values)] inside a change block: an index
    outside [0, length] is a [RangeError]; the elements of the text that the
    change leaves are the values as Automerge keeps them. *)
Definition insertAt (elems : t) (index : Z) (values : list jsstring) : Res t :=
  if (index <? 0) || (Z.of_nat (length elems) <? index) then Throw RangeError
  else Ok (take (Z.to_nat index) elems ++ (stored <$> values)
           ++ drop (Z.to_nat index) elems).

(** [text.deleteAt(index, numDelete)] inside a change block: removes
    [numDelete] elements; a range that leaves the list is a [RangeError]. *)
Definition deleteAt (elems : t) (index numDelete : Z) : Res t :=
  if (index <? 0) || (numDelete <? 0)
     || (Z.of_nat (length elems) - numDelete <? index)
  then Throw RangeError
  else Ok (take (Z.to_nat index) elems
           ++ drop (Z.to_nat index + Z.to_nat numDelete) elems).

End Text.

Module IObservableString.

Inductive ChangeType : Type := insert | remove | set.

Record IChangedArgs : Type := {
  type : ChangeType;
  start : Z;
  end_ : Z;
  value : jsstring
}.

End IObservableString.

Module AutomergeString.

(** What the methods read and write: the [text] property of the document
    [_modelDB.amModel] ([None] when the document has none) and the arguments
    the signal [_changed] was emitted with, oldest first. *)
Record State : Type := {
  amModel_text : option Text.t;
  changed : list IObservableString.IChangedArgs
}.

Definition emit (args : IObservableString.IChangedArgs) : M State unit :=
  modify (λ st, {| amModel_text := amModel_text st;
                   changed := changed st ++ [args] |}).

(** [this._modelDB.amModel = Automerge.change(this._modelDB.amModel, doc => ..)]
    for a callback that works on [doc.text]: nothing is assigned when the
    callback throws. *)
Definition Automerge_change (callback : option Text.t → Res Text.t)
  : M State unit := λ st,
  match callback (amModel_text st) with
  | Ok elems => (Ok tt, {| amModel_text := Some elems; changed := changed st |})
  | Throw e => (Throw e, st)
  end.

(** A method call on [doc.text]; on [undefined] it is a [TypeError]. *)
Definition on_text {A} (doc_text : option Text.t) (f : Text.t → Res A) : Res A :=
  match doc_text with
  | Some elems => f elems
  | None => Throw TypeError
  end.

(** The getter [text]. *)
Definition text (st : State) : jsstring :=
  match amModel_text st with
  | Some elems => Text.toString elems
  | None => []
  end.

Definition insert (index : Z) (text : jsstring) : M State unit :=
  _ ← Automerge_change (λ doc_text,
        on_text doc_text (λ elems, Text.insertAt elems index (spread text)));
  emit {| IObservableString.type := IObservableString.insert;
          IObservableString.start := index;
          IObservableString.end_ := index + Z.of_nat (length text);
          IObservableString.value := text |}.

Definition remove (start end_ : Z) : M State unit :=
  oldValue ← (λ st,
    (on_text (amModel_text st)
       (λ elems, Ok (String_slice (Text.toString elems) start end_)), st));
  _ ← Automerge_change (λ doc_text,
        on_text doc_text (λ elems, Text.deleteAt elems start (end_ - start)));
  emit {| IObservableString.type := IObservableString.remove;
          IObservableString.start := start;
          IObservableString.end_ := end_;
          IObservableString.value := oldValue |}.

(** The setter [text]: it bails, whatever the value. *)
Definition set_text (value : jsstring) : M State unit := mret tt.

(** [clear()]: the document becomes [Automerge.init()], which has no [text],
    and the setter is called with the empty string. *)
Definition clear : M State unit :=
  _ ← modify (λ st, {| amModel_text := None; changed := changed st |});
  set_text [].

(** *** The observer of remote changes *)

(** What the observer reads of a diff of Automerge.  An edit of the text has
    an action, ['insert'], ['remove'] or another one, an index, and the id
    of its element. *)
Inductive EditAction : Type := action_insert | action_remove | action_other.

Record Edit : Type := {
  action : EditAction;
  index : Z;
  elemId : string
}.

(** The diff of a text object.  [edits] and [props] may be missing; an
    entry of [props] maps operation ids to diffs, of which the [value] is
    read, a string or [undefined]; keys come in the order of
    [Object.keys]. *)
Record ObjectDiff : Type := {
  edits : option (list Edit);
  props : option (list (string * list (string * option jsstring)))
}.

(** [propsMap], filled by [Object.keys(props).map(key => ...)]: the first
    operation id of every entry is set to its value; on an entry without
    any, [s[t]] is [undefined] and reading its [value] is a [TypeError]. *)
Definition propsMap_of
    (props : list (string * list (string * option jsstring)))
  : Res (gmap string (option jsstring)) :=
  foldl (λ acc entry,
           propsMap ← acc;
           match entry.2 with
           | (t, value) :: _ => Ok (<[t := value]> propsMap)
           | [] => Throw TypeError
           end)
        (Ok ∅) props.

(** The body of the loop over [edits]; a string is truthy unless it is
    empty, and [' '] is the code unit 32. *)
Definition on_edit (propsMap : gmap string (option jsstring)) (edit : Edit)
  : M State unit :=
  let value := mjoin (propsMap !! elemId edit) in
  match action edit with
  | action_insert =>
    match value with
    | Some (unit :: units) =>
      let value := unit :: units in
      emit {| IObservableString.type := IObservableString.insert;
              IObservableString.start := index edit;
              IObservableString.end_ := index edit + Z.of_nat (length value);
              IObservableString.value := value |}
    | _ => mret tt
    end
  | action_remove =>
    let value :=
      match value with
      | Some (unit :: units) => unit :: units
      | _ => [32%N]
      end in
    emit {| IObservableString.type := IObservableString.remove;
            IObservableString.start := index edit;
            IObservableString.end_ := index edit + Z.of_nat (length value);
            IObservableString.value := value |}
  | action_other => mret tt
  end.

Fixpoint on_edits (propsMap : gmap string (option jsstring))
    (edits : list Edit) : M State unit :=
  match edits with
  | [] => mret tt
  | edit :: edits => _ ← on_edit propsMap edit; on_edits propsMap edits
  end.

(** The callback given to [observe]: [local] is its last argument, and
    [diff_props_text] is [diff.props.text], [None] when [diff.props] or
    [diff.props.text] is missing.  With no key in it, [ad] is [undefined]
    and reading its [edits] is a [TypeError]. *)
Definition observer (local : bool)
    (diff_props_text : option (list (string * ObjectDiff))) : M State unit :=
  if negb local then
    match diff_props_text with
    | Some text_diff =>
      match text_diff with
      | (opId, ad) :: _ =>
        match edits ad with
        | Some edits =>
          match props ad with
          | Some props =>
            propsMap ← (λ st, (propsMap_of props, st));
            on_edits propsMap edits
          | None => mret tt
          end
        | None => mret tt
        end
      | [] => throw TypeError
      end
    | None => mret tt
    end
  else mret tt.

End AutomergeString.

(** ** Path addressing (the module [./ammodeldb] that the list imports) *)

(** Modelled from the spec: [getNested], exported by the [./ammodeldb] of
    the list, which is not among the sources.  It resolves a path, an ordered sequence
    of string segments, to a location in the tree; a segment that is not
    there resolves to [undefined]. *)
Fixpoint getNested (obj : JSValue) (path : list string) : JSValue :=
  match path with
  | [] => obj
  | segment :: path =>
    match obj with
    | JObj o =>
      match o !! segment with
      | Some child => getNested child path
      | None => JUndefined
      end
    | _ => JUndefined
    end
  end.

(** Modelled from the spec: [amDocPath], exported by the [./ammodeldb] of
    the list, which is not among the sources: the location of a path in the document
    tree. *)
Definition amDocPath (amDoc : JSValue) (path : list string) : JSValue :=
  getNested amDoc path.

(** Modelled from the spec: [setNested], exported by the [./ammodeldb] of
    the list, which is not among the sources.  It writes a value at a path, creates the
    intermediate maps lazily on first write, leaves those that exist, and
    fails with [PathTypeConflictError] on an existing node of another kind.
    The source mutates the draft in place; here the new draft is returned. *)
Fixpoint setNested (obj : JSValue) (path : list string) (value : JSValue)
  : Res JSValue :=
  match path with
  | [] => Ok value
  | segment :: path =>
    match obj with
    | JObj o =>
      child ← setNested (prop o segment) path value;
      Ok (JObj (<[segment := child]> o))
    | JUndefined =>
      child ← setNested JUndefined path value;
      Ok (JObj {[segment := child]})
    | _ => Throw PathTypeConflictError
    end
  end.

(** ** Arrays *)

(** The cast [x as List<T>] followed by an array operation: on anything but
    an array the operation is a [TypeError]. *)
Definition as_List (x : JSValue) : Res (list JSValue) :=
  match x with
  | JArr l => Ok l
  | _ => Throw TypeError
  end.

(** [array[index]] *)
Definition Array_get (array : list JSValue) (index : Z) : JSValue :=
  if index <? 0 then JUndefined
  else default JUndefined (array !! Z.to_nat index).

(** [array[index] = value] on a list of an Automerge draft: it overwrites an
    element and appends at [length]; a negative index is not a list index
    ([TypeError]), and an index beyond the length is out of bounds (what the
    builds of Automerge do there differs, and nothing below depends on
    it). *)
Definition Array_set (array : list JSValue) (index : Z) (value : JSValue)
  : Res (list JSValue) :=
  if index <? 0 then Throw TypeError
  else if index <? Z.of_nat (length array)
  then Ok (<[Z.to_nat index := value]> array)
  else if index =? Z.of_nat (length array) then Ok (array ++ [value])
  else Throw RangeError.

(** Whether a value is an object, which Automerge knows by an id once it
    is in the document. *)
Definition is_object (v : JSValue) : bool :=
  match v with JArr _ | JObj _ => true | _ => false end.

(** [array[index] = value] on a list of a draft, which comes with whether
    an operation has been made in the draft; [fresh] tells that the value
    comes from outside the document.  Automerge refuses an object that is in
    the document already, makes no operation when the element is that value
    already, and inserts at the length of the list. *)
Definition Draft_assign (fresh : bool) (draft : list JSValue * bool)
    (index : nat) (value : JSValue) : Res (list JSValue * bool) :=
  if negb fresh && is_object value then Throw RangeError
  else
    match draft.1 !! index with
    | Some old =>
      if strict_equals old value then Ok draft
      else Ok (<[index := value]> draft.1, true)
    | None =>
      if bool_decide (index = length draft.1) then Ok (draft.1 ++ [value], true)
      else Throw RangeError
    end.

(** [array[index] = array[source]] on a list of a draft. *)
Definition Draft_copy (draft : list JSValue * bool) (index source : nat)
  : Res (list JSValue * bool) :=
  Draft_assign false draft index (default JUndefined (draft.1 !! source)).

Module ArrayExt.

(** [ArrayExt.removeAt(array, index)] of @lumino/algorithm: removes and
    returns the value at the index; negative values are taken as an offset
    from the end of the array; [undefined] if the index is out of range.
    Returned here with the new contents of the array.  (Out of range nothing
    is written.  In range the function shifts the elements and assigns
    [array.length], which on a list of a draft not every build of Automerge
    accepts; the removal is given here as the builds that accept it make
    it, for a list whose shifted elements are not objects.) *)
Definition removeAt (array : list JSValue) (index : Z)
  : JSValue * list JSValue :=
  let n := Z.of_nat (length array) in
  let index := if index <? 0 then index + n else index in
  if (index <? 0) || (n <=? index) then (JUndefined, array)
  else (default JUndefined (array !! Z.to_nat index),
        delete (Z.to_nat index) array).

(** [ArrayExt.insert(array, index, value)] of @lumino/algorithm, on a list
    of a draft: negative values are taken as an offset from the end of the
    array, and the index is clamped to the bounds of the array; then
    [for (let i = n; i > index; --i) { array[i] = array[i - 1]; }
     array[index] = value;]. *)
Definition insert (draft : list JSValue * bool) (index : Z) (value : JSValue)
  : Res (list JSValue * bool) :=
  let n := Z.of_nat (length draft.1) in
  let index :=
    Z.to_nat (if index <? 0 then Z.max 0 (index + n) else Z.min index n) in
  draft ← foldl (λ draft i, draft ← draft; Draft_copy draft i (pred i))
                (Ok draft)
                (reverse (seq (S index) (length draft.1 - index)));
  Draft_assign true draft index value.

(** [ArrayExt.move(array, fromIndex, toIndex)] of @lumino/algorithm, on a
    list of a draft: negative values are taken as an offset from the end,
    and both indices are clamped to the array; then
    [let value = array[fromIndex]; let d = fromIndex < toIndex ? 1 : -1;
     for (let i = fromIndex; i !== toIndex; i += d) { array[i] = array[i + d]; }
     array[toIndex] = value;]. *)
Definition move (draft : list JSValue * bool) (fromIndex toIndex : Z)
  : Res (list JSValue * bool) :=
  let n := Z.of_nat (length draft.1) in
  if n <=? 1 then Ok draft
  else
    let fromIndex :=
      Z.to_nat (if fromIndex <? 0 then Z.max 0 (fromIndex + n)
                else Z.min fromIndex (n - 1)) in
    let toIndex :=
      Z.to_nat (if toIndex <? 0 then Z.max 0 (toIndex + n)
                else Z.min toIndex (n - 1)) in
    if bool_decide (fromIndex = toIndex) then Ok draft
    else
      let value := default JUndefined (draft.1 !! fromIndex) in
      draft ←
        (if bool_decide (fromIndex < toIndex)%nat then
           foldl (λ draft i, draft ← draft; Draft_copy draft i (S i))
                 (Ok draft) (seq fromIndex (toIndex - fromIndex))
         else
           foldl (λ draft i, draft ← draft; Draft_copy draft i (pred i))
                 (Ok draft) (reverse (seq (S toIndex) (fromIndex - toIndex))));
      Draft_assign false draft toIndex value.

End ArrayExt.

(** ** [AutomergeList] (unnamed/part_001) *)

Module IObservableList.

Inductive ChangeType : Type := add | move | remove | set.

Record IChangedArgs : Type := {
  type : ChangeType;
  oldIndex : Z;
  newIndex : Z;
  oldValues : list JSValue;
  newValues : list JSValue
}.

End IObservableList.

Module AutomergeList.

(** The message given to [Automerge.change]. *)
Inductive ChangeMessage : Type :=
| list_init
| list_set (path : list string) (index : Z) (value : JSValue)
| list_remove (path : list string) (index : Z)
| list_clear (path : list string).

(** A callback handed to [waitOnAmDocInit], by the method and the arguments
    that made it. *)
Inductive Deferred : Type :=
| defer_set (itemCmp : JSValue → JSValue → bool)
    (path : list string) (index : Z) (value : JSValue)
| defer_remove (path : list string) (index : Z)
| defer_clear (path : list string).

(** The state around one list: of its [_modelDB], the document tree
    [amDoc], the flag [isInitialized], the variable [lock] of its gate, the
    callbacks waiting for initialization, and the local changes made through
    [Automerge.change] (each one is an outbound change-set); of the list
    itself, the arguments its signal [_changed] was emitted with. *)
Record World : Type := {
  amDoc : JSValue;
  isInitialized : bool;
  lock_var : bool;
  waiting : list Deferred;
  changes : list ChangeMessage;
  changed : list IObservableList.IChangedArgs
}.

#[global, refine] Instance World_gated : Gated World := {
  lock := lock_var;
  set_lock b w := {| amDoc := amDoc w; isInitialized := isInitialized w;
                     lock_var := b; waiting := waiting w;
                     changes := changes w; changed := changed w |}
}.
Proof.
  - done.
  - done.
  - by intros [].
Defined.

(** [this._changed.emit(args)] *)
Definition emit (args : IObservableList.IChangedArgs) : M World unit :=
  modify (λ w, {| amDoc := amDoc w; isInitialized := isInitialized w;
                  lock_var := lock_var w; waiting := waiting w;
                  changes := changes w; changed := changed w ++ [args] |}).

(** [this._modelDB.amDoc = Automerge.change(this._modelDB.amDoc, message,
    callback)]: the callback works on a draft of the tree; the new tree is
    assigned and the change recorded unless the callback throws.  The result
    is what the callback wrote to captured variables.  (For a callback that
    made no operation Automerge records no change; the log is read below
    only where [Automerge.change] is not reached, and the methods further
    on, where it matters, keep track of the operations made.) *)
Definition Automerge_change {A} (message : ChangeMessage)
    (callback : JSValue → Res (A * JSValue)) : M World A := λ w,
  match callback (amDoc w) with
  | Ok (a, doc) =>
    (Ok a, {| amDoc := doc; isInitialized := isInitialized w;
              lock_var := lock_var w; waiting := waiting w;
              changes := changes w ++ [message]; changed := changed w |})
  | Throw e => (Throw e, w)
  end.

(** An operation on the array found at [path] in the draft, which it may
    mutate in place: [f] gives its result and the new contents. *)
Definition on_list {A} (doc : JSValue) (path : list string)
    (f : list JSValue → Res (A * list JSValue)) : Res (A * JSValue) :=
  array ← as_List (getNested doc path);
  '(a, array) ← f array;
  doc ← setNested doc path (JArr array);
  Ok (a, doc).

(** Modelled from the spec: [waitOnAmDocInit], exported by the
    [./ammodeldb] of the list, which is not among the sources.  A mutation
    takes effect once the document is initialized: the callback runs when
    it is, and is queued otherwise, to be replayed in FIFO order when
    initialization completes.  [None] is returned for a queued callback. *)
Definition waitOnAmDocInit {A} (deferred : Deferred) (callback : M World A)
  : M World (option A) := λ w,
  if isInitialized w then (Some <$> callback) w
  else
    (Ok None, {| amDoc := amDoc w; isInitialized := isInitialized w;
                 lock_var := lock_var w; waiting := waiting w ++ [deferred];
                 changes := changes w; changed := changed w |}).

(** Modelled from the spec: [AutomergeModelDB.withLock], of the
    [./ammodeldb] of the list, which is not among the sources: the gate made by
    [createLock], called here without an alternative action. *)
Definition withLock {A} (action : M World A) : M World (option A) :=
  createLock action None.

Section methods.
Variable path : list string.
Variable itemCmp : JSValue → JSValue → bool.

Definition initObservables : M World unit :=
  doc ← gets amDoc;
  if truthy (amDocPath doc path) then
    (* no-op *)
    mret tt
  else
    Automerge_change list_init (λ doc,
      doc ← setNested doc path (JArr []);
      Ok (tt, doc)).

Definition get (index : Z) : M World JSValue := λ w,
  (array ← as_List (amDocPath (amDoc w) path); Ok (Array_get array index), w).

(** The callback of [set]. *)
Definition set_callback (index : Z) (value : JSValue) : M World (option unit) :=
  withLock (
    oldValue ← get index;
    if is_undefined value then
      throw (Error "Cannot set an undefined item")
    else
      (* Bail if the value does not change. *)
      if itemCmp oldValue value then
        mret tt
      else
        _ ← Automerge_change (list_set path index value) (λ doc,
              on_list doc path (λ array,
                array ← Array_set array index value; Ok (tt, array)));
        emit {| IObservableList.type := IObservableList.set;
                IObservableList.oldIndex := index;
                IObservableList.newIndex := index;
                IObservableList.oldValues := [oldValue];
                IObservableList.newValues := [value] |}).

Definition set (index : Z) (value : JSValue) : M World unit :=
  _ ← waitOnAmDocInit (defer_set itemCmp path index value)
        (set_callback index value);
  mret tt.

(** The callback of [remove]; its result is what it assigns to [value]. *)
Definition remove_callback (index : Z) : M World (option JSValue) :=
  withLock (
    Automerge_change (list_remove path index) (λ doc,
      on_list doc path (λ array, Ok (ArrayExt.removeAt array index)))).

Definition remove (index : Z) : M World JSValue :=
  let value := JUndefined in
  assigned ← waitOnAmDocInit (defer_remove path index) (remove_callback index);
  let value := default value (mjoin assigned) in
  if is_undefined value then
    mret JUndefined
  else
    _ ← emit {| IObservableList.type := IObservableList.remove;
                IObservableList.oldIndex := index;
                IObservableList.newIndex := -1;
                IObservableList.newValues := [];
                IObservableList.oldValues := [value] |};
    mret value.

(** The callback of [clear]. *)
Definition clear_callback : M World (option unit) :=
  withLock (
    copy ← (λ w, (as_List (amDocPath (amDoc w) path), w));
    _ ← Automerge_change (list_clear path) (λ doc,
          doc ← setNested doc path (JArr []);
          Ok (tt, doc));
    emit {| IObservableList.type := IObservableList.remove;
            IObservableList.oldIndex := 0;
            IObservableList.newIndex := 0;
            IObservableList.newValues := [];
            IObservableList.oldValues := copy |}).

Definition clear : M World unit :=
  doc ← gets amDoc;
  if truthy (amDocPath doc path) then
    _ ← waitOnAmDocInit (defer_clear path) clear_callback;
    mret tt
  else
    mret tt.

(** The getter [length]. *)
Definition length (w : World) : JSValue :=
  if truthy (amDocPath (amDoc w) path) then
    match amDocPath (amDoc w) path with
    | JArr array => JNum (Z.of_nat (List.length array))
    | JStr s => JNum (Z.of_nat (List.length s))
    | _ => JUndefined
    end
  else JNum 0.

End methods.

(** Replaying a queued callback. *)
Definition replay (deferred : Deferred) : M World unit :=
  match deferred with
  | defer_set itemCmp path index value =>
    _ ← set_callback path itemCmp index value; mret tt
  | defer_remove path index => _ ← remove_callback path index; mret tt
  | defer_clear path => _ ← clear_callback path; mret tt
  end.

Fixpoint replay_all (callbacks : list Deferred) : M World unit :=
  match callbacks with
  | [] => mret tt
  | deferred :: callbacks => _ ← replay deferred; replay_all callbacks
  end.

(** Modelled from the spec: the end of initialization, in the
    [./ammodeldb] of the list, which is not among the sources: the flag flips
    to true and the queue is drained once, in FIFO order. *)
Definition initialized : M World unit := λ w,
  replay_all (waiting w)
    {| amDoc := amDoc w; isInitialized := true; lock_var := lock_var w;
       waiting := []; changes := changes w; changed := changed w |}.

End AutomergeList.

(** ** [AutomergeList]: the methods on several values and [move] *)

Module AutomergeListBulk.

(** The message given to [Automerge.change]. *)
Inductive ChangeMessage : Type :=
| list_push (path : list string) (value : JSValue)
| list_pushAll (path : list string) (values : list JSValue)
| list_insertAll (path : list string) (index : Z) (values : list JSValue)
| list_move (path : list string) (fromIndex toIndex : Z).

(** A callback handed to [waitOnAmDocInit], by the method and the arguments
    that made it. *)
Inductive Deferred : Type :=
| defer_push (path : list string) (value : JSValue)
| defer_pushAll (path : list string) (values : list JSValue)
| defer_insertAll (path : list string) (index : Z) (values : list JSValue)
| defer_move (path : list string) (fromIndex toIndex : Z).

(** The state around one list, as [AutomergeList.World], with the messages
    and the callbacks of these methods: the document tree, the flag, the
    variable of the gate, the callbacks waiting for initialization, the
    local changes, and the arguments the signal [_changed] was emitted
    with. *)
Record World : Type := {
  amDoc : JSValue;
  isInitialized : bool;
  lock_var : bool;
  waiting : list Deferred;
  changes : list ChangeMessage;
  changed : list IObservableList.IChangedArgs
}.

#[global, refine] Instance World_gated : Gated World := {
  lock := lock_var;
  set_lock b w := {| amDoc := amDoc w; isInitialized := isInitialized w;
                     lock_var := b; waiting := waiting w;
                     changes := changes w; changed := changed w |}
}.
Proof.
  - done.
  - done.
  - by intros [].
Defined.

(** [this._changed.emit(args)] *)
Definition emit (args : IObservableList.IChangedArgs) : M World unit :=
  modify (λ w, {| amDoc := amDoc w; isInitialized := isInitialized w;
                  lock_var := lock_var w; waiting := waiting w;
                  changes := changes w; changed := changed w ++ [args] |}).

(** [this._modelDB.amDoc = Automerge.change(this._modelDB.amDoc, message,
    callback)].  The callback works on a draft of the document, which comes
    with whether an operation has been made in it; when the callback has
    made none, Automerge returns the document it was given and records no
    change. *)
Definition Automerge_change {A} (message : ChangeMessage)
    (callback : JSValue * bool → Res (A * (JSValue * bool))) : M World A :=
  λ w,
  match callback (amDoc w, false) with
  | Ok (a, (doc, true)) =>
    (Ok a, {| amDoc := doc; isInitialized := isInitialized w;
              lock_var := lock_var w; waiting := waiting w;
              changes := changes w ++ [message]; changed := changed w |})
  | Ok (a, (_, false)) => (Ok a, w)
  | Throw e => (Throw e, w)
  end.

(** An operation on the array found at [path] in the draft, which it may
    mutate in place: [f] gives its result and the new contents. *)
Definition on_list {A} (draft : JSValue * bool) (path : list string)
    (f : list JSValue * bool → Res (A * (list JSValue * bool)))
  : Res (A * (JSValue * bool)) :=
  array ← as_List (getNested draft.1 path);
  '(a, (array, made)) ← f (array, draft.2);
  doc ← setNested draft.1 path (JArr array);
  Ok (a, (doc, made)).

(** [array.push(value)] on a list of a draft. *)
Definition Draft_push (value : JSValue) (draft : list JSValue * bool)
  : Res (unit * (list JSValue * bool)) :=
  Ok (tt, (draft.1 ++ [value], true)).

(** Modelled from the spec: [waitOnAmDocInit], exported by the
    [./ammodeldb] of the list, which is not among the sources: the callback
    runs when the document is initialized, and is queued otherwise. *)
Definition waitOnAmDocInit {A} (deferred : Deferred) (callback : M World A)
  : M World (option A) := λ w,
  if isInitialized w then (Some <$> callback) w
  else
    (Ok None, {| amDoc := amDoc w; isInitialized := isInitialized w;
                 lock_var := lock_var w; waiting := waiting w ++ [deferred];
                 changes := changes w; changed := changed w |}).

(** Modelled from the spec: [AutomergeModelDB.withLock], of the
    [./ammodeldb] of the list, which is not among the sources: the gate made
    by [createLock], called without an alternative action. *)
Definition withLock {A} (action : M World A) : M World (option A) :=
  createLock action None.

Section methods.
Variable path : list string.

(** The getter [length], where a number is expected; the value at the path
    is a list or is missing. *)
Definition length : M World Z := λ w,
  (if truthy (amDocPath (amDoc w) path) then
     array ← as_List (amDocPath (amDoc w) path);
     Ok (Z.of_nat (List.length array))
   else Ok 0, w).

Definition push (value : JSValue) : M World Z :=
  _ ← waitOnAmDocInit (defer_push path value) (withLock (
        Automerge_change (list_push path value) (λ doc,
          on_list doc path (Draft_push value))));
  num ← (λ w,
    (array ← as_List (amDocPath (amDoc w) path);
     Ok (Z.of_nat (List.length array)), w));
  len ← length;
  _ ← emit {| IObservableList.type := IObservableList.add;
              IObservableList.oldIndex := -1;
              IObservableList.newIndex := len - 1;
              IObservableList.oldValues := [];
              IObservableList.newValues := [value] |};
  mret num.

Definition pushAll (values : list JSValue) : M World Z :=
  newIndex ← length;
  _ ← waitOnAmDocInit (defer_pushAll path values) (withLock (
        Automerge_change (list_pushAll path values) (λ doc,
          foldl (λ doc value,
                   '(_, doc) ← doc;
                   on_list doc path (Draft_push value))
                (Ok (tt, doc)) values)));
  _ ← emit {| IObservableList.type := IObservableList.add;
              IObservableList.oldIndex := -1;
              IObservableList.newIndex := newIndex;
              IObservableList.oldValues := [];
              IObservableList.newValues := values |};
  length.

Definition insertAll (index : Z) (values : list JSValue) : M World unit :=
  let newIndex := index in
  _ ← waitOnAmDocInit (defer_insertAll path index values) (withLock (
        Automerge_change (list_insertAll path index values) (λ doc,
          '(_, doc) ← foldl (λ acc value,
                   '(index, doc) ← acc;
                   '(_, doc) ← on_list doc path (λ array,
                     array ← ArrayExt.insert array index value;
                     Ok (tt, array));
                   Ok (index + 1, doc))
                (Ok (index, doc)) values;
          Ok (tt, doc))));
  emit {| IObservableList.type := IObservableList.add;
          IObservableList.oldIndex := -1;
          IObservableList.newIndex := newIndex;
          IObservableList.oldValues := [];
          IObservableList.newValues := values |}.

Definition move (fromIndex toIndex : Z) : M World unit :=
  len ← length;
  if (len <=? 1) || (fromIndex =? toIndex) then
    mret tt
  else
    _ ← waitOnAmDocInit (defer_move path fromIndex toIndex) (withLock (
          values ← Automerge_change (list_move path fromIndex toIndex) (λ doc,
            on_list doc path (λ array,
              let values := [Array_get array.1 fromIndex] in
              array ← ArrayExt.move array fromIndex toIndex;
              Ok (values, array)));
          emit {| IObservableList.type := IObservableList.move;
                  IObservableList.oldIndex := fromIndex;
                  IObservableList.newIndex := toIndex;
                  IObservableList.oldValues := values;
                  IObservableList.newValues := values |}));
    mret tt.

End methods.

End AutomergeListBulk.

(** ** [AutomergeModelDB]: the listener for remote changes (ammodeldb.ts) *)

#[global] Instance byte_eq_dec : EqDecision byte := Byte.byte_eq_dec.

(** What the listener uses of the Automerge library.  A document has a tree,
    its root object, and a record of the binary changes it has received. *)
Record AutomergeLib : Type := {
  Doc : Type;
  root : Doc → gmap string JSValue;
  received : Doc → list byte → Prop;
  (** [Automerge.applyChanges(doc, changes)] *)
  applyChanges : Doc → list (list byte) → Res Doc;
  (** [Automerge.change(doc, message, callback)], the callback working on a
      draft of the root object *)
  change : Doc → string
           → (gmap string JSValue → Res (gmap string JSValue)) → Res Doc;
  (** [Automerge.getChanges(before, after)] *)
  getChanges : Doc → Doc → list (list byte);
  (** [Automerge.Frontend.setActorId(doc, actorId)] *)
  setActorId : Doc → JSValue → Res Doc
}.

(** The contract of the library: a change that was already received is
    applied without effect on the tree, and a local change makes the tree
    that its callback makes. *)
Record AutomergeContract (A : AutomergeLib) : Prop := {
  applyChanges_received : ∀ doc binary,
    received A doc binary →
    ∃ doc', applyChanges A doc [binary] = Ok doc'
      ∧ root A doc' = root A doc
      ∧ ∀ other, received A doc other → received A doc' other;
  applyChanges_records : ∀ doc binary doc',
    applyChanges A doc [binary] = Ok doc' → received A doc' binary;
  change_root : ∀ doc message callback doc',
    change A doc message callback = Ok doc' →
    callback (root A doc) = Ok (root A doc');
  change_returns : ∀ doc message callback tree,
    callback (root A doc) = Ok tree →
    ∃ doc', change A doc message callback = Ok doc';
  change_keeps : ∀ doc message callback doc' binary,
    change A doc message callback = Ok doc' →
    received A doc binary → received A doc' binary
}.

Definition CSS_COLOR_NAMES : list string :=
  ["Red"; "Orange"; "Olive"; "Green"; "Purple"; "Fuchsia"; "Lime"; "Teal";
   "Aqua"; "Blue"; "Navy"; "Black"; "Gray"; "Silver"].

Record Collaborator : Type := {
  userId : string;
  sessionId : string;
  displayName : string;
  color : string;
  shortName : string
}.

(** Property read [x[key]] on a value; reading a property of [undefined] or
    [null] is a [TypeError], and a primitive or an array has no property
    named by an actor id. *)
Definition member (x : JSValue) (key : string) : Res JSValue :=
  match x with
  | JObj o => Ok (prop o key)
  | JUndefined | JNull => Throw TypeError
  | _ => Ok JUndefined
  end.

(** What a database asks of its store [_db], which is an [ObservableMap]
    or another database: the interface they share. *)
Class PathStore (DB V : Type) : Type := {
  store_get : string → DB → option V;
  store_has : string → DB → bool;
  store_set : string → V → DB → DB
}.


(** A plain map as a store. *)
#[global] Instance gmap_store {V} : PathStore (gmap string V) V := {
  store_get key db := db !! key;
  store_has key db := bool_decide (is_Some (db !! key));
  store_set key value db := <[key := value]> db
}.

Module AutomergeModelDB.

Section paths.
Context {DB V : Type} `{PathStore DB V}.

(** [_resolvePath(path)], for the [_basePath] of the instance; a string is
    truthy unless it is empty. *)
Definition _resolvePath (basePath path : string) : string :=
  if bool_decide (basePath = "") then path
  else basePath +:+ "." +:+ path.

(** [get(path)], [has(path)] and [set(path, value)] *)
Definition get (basePath path : string) (db : DB) : option V :=
  store_get (_resolvePath basePath path) db.

Definition has (basePath path : string) (db : DB) : bool :=
  store_has (_resolvePath basePath path) db.

Definition set (basePath path : string) (value : V) (db : DB) : DB :=
  store_set (_resolvePath basePath path) value db.

End paths.

Section listener.
Variable A : AutomergeLib.

(** The fields of the instance that the listener reads and writes: the
    document, the variable of the gate [_lock], the flag, the collaborators,
    the paths of [_db] (with whether the value there has [observeRemotes])
    and those whose [observeRemotes] was called, the arrays of changes
    waiting for the socket to be sent, and the coming results of
    [Math.floor(Math.random() * CSS_COLOR_NAMES.length)]. *)
Record State : Type := {
  amDoc : Doc A;
  lock_var : bool;
  isInitialized : bool;
  collaborators : gmap string Collaborator;
  db : list (string * bool);
  observing : list string;
  sending : list (list (list byte));
  random : list nat
}.

(** The state with another document in [_amDoc]. *)
Definition with_amDoc (st : State) (doc : Doc A) : State :=
  {| amDoc := doc; lock_var := lock_var st; isInitialized := isInitialized st;
     collaborators := collaborators st; db := db st; observing := observing st;
     sending := sending st; random := random st |}.

#[global, refine] Instance State_gated : Gated State := {
  lock := lock_var;
  set_lock b st :=
    {| amDoc := amDoc st; lock_var := b; isInitialized := isInitialized st;
       collaborators := collaborators st; db := db st;
       observing := observing st; sending := sending st;
       random := random st |}
}.
Proof.
  - done.
  - done.
  - by intros [].
Defined.

(** [this._amDoc = Automerge.change(this._amDoc, message, callback)], with
    what the observer of local changes does when the change is made: it
    stores the new document and hands [Automerge.getChanges(before, after)]
    to [waitForSocketConnection], to be combined and sent. *)
Definition Automerge_change (message : string)
    (callback : gmap string JSValue → Res (gmap string JSValue))
  : M State unit := λ st,
  match change A (amDoc st) message callback with
  | Ok after =>
    (Ok tt,
     {| amDoc := after; lock_var := lock_var st;
        isInitialized := isInitialized st;
        collaborators := collaborators st; db := db st;
        observing := observing st;
        sending := sending st ++ [getChanges A (amDoc st) after];
        random := random st |})
  | Throw e => (Throw e, st)
  end.

(** [this._ws.send(combine(changes))] for every array of changes that
    waits, once the socket is open: the payloads sent. *)
Definition sent (st : State) : list (Res (list byte)) :=
  combine <$> sending st.

(** [new Collaborator(uuid, uuid, `Anonymous ${uuid}`, CSS_COLOR_NAMES[..],
    `Anonymous ${uuid.substr(0, 5)}`)] for the next random index. *)
Definition anonymous (uuid : string) (index : nat) : Collaborator :=
  {| userId := uuid;
     sessionId := uuid;
     displayName := "Anonymous " +:+ uuid;
     color := default "" (CSS_COLOR_NAMES !! index);
     shortName := "Anonymous " +:+ String.substring 0 5 uuid |}.

(** The body of [Object.keys(this._amDoc['users']).map(uuid => ...)]. *)
Definition register (uuid : string) : M State unit := λ st,
  match collaborators st !! uuid with
  | Some _ => (Ok tt, st)
  | None =>
    (Ok tt,
     {| amDoc := amDoc st; lock_var := lock_var st;
        isInitialized := isInitialized st;
        collaborators :=
          <[uuid := anonymous uuid (hd 0%nat (random st))]> (collaborators st);
        db := db st; observing := observing st; sending := sending st;
        random := tail (random st) |})
  end.

Fixpoint register_all (uuids : list string) : M State unit :=
  match uuids with
  | [] => mret tt
  | uuid :: uuids => _ ← register uuid; register_all uuids
  end.

(** [Object.keys(x)] where [x] is the [users] object. *)
Definition keys_of (x : JSValue) : list string :=
  match x with
  | JObj o => Object_keys o
  | _ => []
  end.

(** The end of the action: the first message initializes the adapters. *)
Definition initialize : M State unit := λ st,
  if isInitialized st then (Ok tt, st)
  else
    (Ok tt,
     {| amDoc := amDoc st; lock_var := lock_var st; isInitialized := true;
        collaborators := collaborators st; db := db st;
        observing := observing st ++ (filter (λ entry, entry.2 = true) (db st)).*1;
        sending := sending st; random := random st |}).

(** [if (!this._amDoc['users']) { this._amDoc = Automerge.change(.., `users`,
    doc => { doc['users'] = {}; }); }] *)
Definition ensure_users : M State unit :=
  users ← gets (λ st, prop (root A (amDoc st)) "users");
  if truthy users then mret tt
  else Automerge_change "users" (λ doc, Ok (<["users" := JObj ∅]> doc)).

(** [if (!this._amDoc['users'][this._actorId]) { this._amDoc =
    Automerge.change(.., `users ${this._actorId}`, doc => {
    doc['users'][this._actorId] = true; }); }]; the assignment is a
    [TypeError] when [users] is not an object. *)
Definition ensure_actor (actorId : string) : M State unit :=
  mine ← (λ st, (member (prop (root A (amDoc st)) "users") actorId, st));
  if truthy mine then mret tt
  else Automerge_change ("users " +:+ actorId) (λ doc,
         match prop doc "users" with
         | JObj users =>
           Ok (<["users" := JObj (<[actorId := JBool true]> users)]> doc)
         | _ => Throw TypeError
         end).

(** [Object.keys(this._amDoc['users']).map(uuid => { ... })] *)
Definition register_users : M State unit :=
  uuids ← gets (λ st, keys_of (prop (root A (amDoc st)) "users"));
  register_all uuids.

(** The part of the action that follows [Automerge.applyChanges]. *)
Definition after_applyChanges (actorId : string) : M State unit :=
  _ ← ensure_users;
  _ ← ensure_actor actorId;
  _ ← register_users;
  initialize.

(** A state in which that part has nothing left to do: [users] is an object
    that holds the actor, every user is a known collaborator, and the
    adapters are initialized. *)
Definition settled (actorId : string) (st : State) : Prop :=
  ∃ users,
    prop (root A (amDoc st)) "users" = JObj users
    ∧ truthy (prop users actorId) = true
    ∧ (∀ uuid, uuid ∈ Object_keys users → is_Some (collaborators st !! uuid))
    ∧ isInitialized st = true.

(** A state in which that part cannot proceed: [users] is there and is not
    an object. *)
Definition stuck (st : State) : Prop :=
  truthy (prop (root A (amDoc st)) "users") = true
  ∧ ∀ users, prop (root A (amDoc st)) "users" ≠ JObj users.

(** What every step of the action leaves alone: the variable of the gate
    and the changes that the document has received. *)
Definition keeps (st st' : State) : Prop :=
  lock_var st' = lock_var st
  ∧ ∀ binary, received A (amDoc st) binary → received A (amDoc st') binary.

(** [if (this._amDoc['ownerId']) { Automerge.Frontend.setActorId(
    this._amDoc, this._amDoc['ownerId']); }]: the document that
    [setActorId] returns is dropped. *)
Definition adopt_owner : M State unit := λ st,
  let ownerId := prop (root A (amDoc st)) "ownerId" in
  if truthy ownerId
  then (_ ← setActorId A (amDoc st) ownerId; Ok tt, st)
  else (Ok tt, st).

(** [this._amDoc = Automerge.applyChanges(this._amDoc, [changes])] *)
Definition apply_remote (changes : list byte) : M State unit := λ st,
  match applyChanges A (amDoc st) [changes] with
  | Ok doc => (Ok tt, with_amDoc st doc)
  | Throw e => (Throw e, st)
  end.

(** The action given to the gate by the listener. *)
Definition merge (actorId : string) (changes : list byte) : M State unit :=
  _ ← adopt_owner;
  _ ← apply_remote changes;
  after_applyChanges actorId.

(** The listener of the socket for the event [message]; the data of the
    message is [None] when there is none. *)
Definition onmessage (actorId : string) (message_data : option (list byte))
  : M State unit :=
  match message_data with
  | Some data =>
    let changes := data in
    _ ← createLock (merge actorId changes) None;
    mret tt
  | None => mret tt
  end.

End listener.

Arguments amDoc {A} _.
Arguments lock_var {A} _.
Arguments isInitialized {A} _.
Arguments collaborators {A} _.
Arguments db {A} _.
Arguments observing {A} _.
Arguments sending {A} _.
Arguments random {A} _.
Arguments with_amDoc {A} _ _.
Arguments sent {A} _.

End AutomergeModelDB.

(** ** [AutomergeModelDBView] (unnamed/part_003) *)

Module AutomergeModelDBView.

Section view.
Context {DB V : Type} `{PathStore DB V}.
(** The [_basePath] of the view, and that of the database it looks at. *)
Variables (viewBasePath basePath : string).

Definition _viewedPath (path : string) : string :=
  if bool_decide (viewBasePath = "") then path
  else viewBasePath +:+ "_" +:+ path.

Definition get (path : string) (db : DB) : option V :=
  AutomergeModelDB.get basePath (_viewedPath path) db.

Definition set (path : string) (value : V) (db : DB) : DB :=
  AutomergeModelDB.set basePath (_viewedPath path) value db.

Definition has (path : string) (db : DB) : bool :=
  AutomergeModelDB.has basePath (_viewedPath path) db.

End view.

End AutomergeModelDBView.

(** *** A small library that meets the contract *)

(** A document of the toy library: a tree and the changes received. *)
Record ToyDoc : Type := {
  toy_tree : gmap string JSValue;
  toy_history : list (list byte)
}.

(** A binary change of the toy library [[k; v]] sets the property named by
    the byte [k] to the number of the byte [v]; others change nothing. *)
Definition toy_decode (binary : list byte) (tree : gmap string JSValue)
  : gmap string JSValue :=
  match binary with
  | [k; v] =>
    <[String (ascii_of_byte k) EmptyString := JNum (Z.of_N (Byte.to_N v))]> tree
  | _ => tree
  end.

Definition toy_apply (doc : ToyDoc) (binary : list byte) : ToyDoc :=
  if bool_decide (binary ∈ toy_history doc) then doc
  else {| toy_tree := toy_decode binary (toy_tree doc);
          toy_history := binary :: toy_history doc |}.

Definition ToyAutomerge : AutomergeLib := {|
  Doc := ToyDoc;
  root := toy_tree;
  received doc binary := binary ∈ toy_history doc;
  applyChanges doc changes := Ok (foldl toy_apply doc changes);
  change doc message callback :=
    tree ← callback (toy_tree doc);
    Ok {| toy_tree := tree; toy_history := toy_history doc |};
  getChanges before after := [];
  setActorId doc actorId := Ok doc
|}.

(** A program state for exercising the gate: the captured [lock] and a
    trace of the actions that ran. *)
Record Traced : Type := { gate_free : bool; trace : list string }.

#[global, refine] Instance Traced_gated : Gated Traced := {
  lock := gate_free;
  set_lock b w := {| gate_free := b; trace := trace w |}
}.
Proof.
  - done.
  - done.
  - by intros [].
Defined.

(** An action that records its name, e.g. [() => console.log(name)]. *)
Definition say (name : string) : M Traced unit :=
  modify (λ w, {| gate_free := gate_free w; trace := trace w ++ [name] |}).

(** An action that records its name and then throws. *)
Definition say_and_throw (name : string) : M Traced unit :=
  _ ← say name; throw (Error name).

(** ** Examples: an engine *)

(** The methods of [Object.prototype]. *)
Definition Object_prototype_names : list string :=
  ["constructor"; "hasOwnProperty"; "isPrototypeOf"; "propertyIsEnumerable";
   "toLocaleString"; "toString"; "valueOf"; "__defineGetter__";
   "__defineSetter__"; "__lookupGetter__"; "__lookupSetter__"].

(** [Object.prototype] as a value.  A function is an object; the value
    model keeps of it that it is one, without properties. *)
Definition Object_prototype_object : gmap string JSValue :=
  list_to_map ((λ name, (name, JObj ∅)) <$> Object_prototype_names).

(** An engine for the examples.  Of a prototype that is an array or a
    function it gives only what [Object.prototype] gives: the indices, the
    [length] and the methods of arrays and functions are left out. *)
Definition example_realm : Realm := {|
  Object_prototype_get key :=
    if bool_decide (key = "__proto__") then JObj Object_prototype_object
    else prop Object_prototype_object key;
  prototype_get p key :=
    match p with
    | JObj o =>
      match o !! key with
      | Some value => value
      | None =>
        if bool_decide (key = "__proto__") then p
        else prop Object_prototype_object key
      end
    | _ =>
      if bool_decide (key = "__proto__") then p
      else prop Object_prototype_object key
    end
|}.

(** ** Examples: a notebook with two cells *)

(** A notebook whose cells are objects, as the cells of a notebook are. *)
Definition object_cells : AutomergeListBulk.World :=
  {| AutomergeListBulk.amDoc :=
       JObj {["cells" := JArr [JObj {["id" := JNum 1]};
                               JObj {["id" := JNum 2]}]]};
     AutomergeListBulk.isInitialized := true;
     AutomergeListBulk.lock_var := true;
     AutomergeListBulk.waiting := [];
     AutomergeListBulk.changes := [];
     AutomergeListBulk.changed := [] |}.

Definition two_cells_bulk (ready free : bool) : AutomergeListBulk.World :=
  {| AutomergeListBulk.amDoc := JObj {["cells" := JArr [JNum 1; JNum 2]]};
     AutomergeListBulk.isInitialized := ready;
     AutomergeListBulk.lock_var := free;
     AutomergeListBulk.waiting := [];
     AutomergeListBulk.changes := [];
     AutomergeListBulk.changed := [] |}.

(** ** Predicates of the statements *)

(** What a run of operations on the list at [path] keeps, from the draft
    [doc] it started with: the current draft [doc'] is [doc] with the
    current contents written at the path. *)
Definition list_written (doc : JSValue) (path : list string)
    (doc' : JSValue) (array : list JSValue) : Prop :=
  getNested doc' path = JArr array ∧ setNested doc path (JArr array) = Ok doc'.

(** The values of a list of which none is an object. *)
Definition primitives (array : list JSValue) : Prop :=
  Forall (λ value, is_object value = false) array.

(** A value from outside the document that Automerge takes and gives back
    as it was given: [null], a boolean, a number, a string that its UTF-8
    encoding keeps, or an array or an object of such values, with no
    property named by the empty string or by [__proto__].  ([undefined] is
    not among the values of a document.) *)
Inductive storable : JSValue → Prop :=
| storable_null : storable JNull
| storable_bool b : storable (JBool b)
| storable_num n : storable (JNum n)
| storable_str s : stored s = s → storable (JStr s)
| storable_arr l : Forall storable l → storable (JArr l)
| storable_obj o :
    (∀ key value, o !! key = Some value →
       key ≠ "" ∧ key ≠ "__proto__" ∧ storable value) →
    storable (JObj o).

(** The local changes after a call that may have made none. *)
Definition recorded (w : AutomergeListBulk.World)
    (message : AutomergeListBulk.ChangeMessage) (values : list JSValue)
  : list AutomergeListBulk.ChangeMessage :=
  match values with
  | [] => AutomergeListBulk.changes w
  | _ => AutomergeListBulk.changes w ++ [message]
  end.

(** An event of a string spans its value, which is not empty, and is an
    insertion or a removal. *)
Definition spans_value (args : IObservableString.IChangedArgs) : Prop :=
  IObservableString.value args ≠ []
  ∧ IObservableString.end_ args
    = IObservableString.start args
      + Z.of_nat (length (IObservableString.value args))
  ∧ IObservableString.type args ≠ IObservableString.set.

(** What the listener for remote changes may do to the fields of the
    replica other than the document: collaborators are added and none is
    replaced or removed, arrays of changes to send are added at the end,
    the paths of [_db] stay, and once the adapters are initialized they
    stay so and [observeRemotes] is not called again. *)
Definition only_adds {A : AutomergeLib} (st st' : AutomergeModelDB.State A)
  : Prop :=
  (∀ uuid collaborator,
     AutomergeModelDB.collaborators st !! uuid = Some collaborator →
     AutomergeModelDB.collaborators st' !! uuid = Some collaborator)
  ∧ AutomergeModelDB.sending st `prefix_of` AutomergeModelDB.sending st'
  ∧ AutomergeModelDB.db st' = AutomergeModelDB.db st
  ∧ (AutomergeModelDB.isInitialized st = true →
     AutomergeModelDB.isInitialized st' = true
     ∧ AutomergeModelDB.observing st' = AutomergeModelDB.observing st).

(* ===================================================================== *)
(** * Part II: properties                                                 *)
(* ===================================================================== *)

(** ** [combine] *)

Section combine_facts.
Implicit Types (changes : list (list byte)) (done : list byte).

Lemma Uint8Array_set_zeros done (change : list byte) (n : nat) :
  Uint8Array.set (done ++ replicate (length change + n) x00) change (length done)
  = Ok (done ++ change ++ replicate n x00).
Proof.
  unfold Uint8Array.set.
  rewrite decide_True by (rewrite length_app, length_replicate; lia).
  by rewrite take_app_length, drop_app_add, drop_replicate_add.
Qed.

Lemma combine_total_length changes (n : nat) :
  foldl (λ length item, (length + List.length item)%nat) n changes
  = (n + sum_list (length <$> changes))%nat.
Proof.
  revert n. induction changes as [|c changes IH]; intros n; csimpl.
  - lia.
  - rewrite IH. lia.
Qed.

Lemma combine_loop changes done (n : nat) :
  foldl
    (λ acc change,
       '(combined, offset) ← acc;
       combined ← Uint8Array.set combined change offset;
       Ok (combined, (offset + List.length change)%nat))
    (Ok (done ++ replicate (sum_list (length <$> changes) + n) x00, length done))
    changes
  = Ok (done ++ concat changes ++ replicate n x00,
        (length done + sum_list (length <$> changes))%nat).
Proof.
  revert done. induction changes as [|c changes IH]; intros done; csimpl.
  - by rewrite Nat.add_0_r.
  - rewrite <- Nat.add_assoc, Uint8Array_set_zeros. csimpl.
    rewrite (app_assoc done c), <- length_app, IH.
    by rewrite length_app, <- !app_assoc, Nat.add_assoc.
Qed.

Lemma combine_concat changes : combine changes = Ok (concat changes).
Proof.
  unfold combine, Uint8Array.new. rewrite combine_total_length. simpl.
  pose proof (combine_loop changes [] 0) as Hloop.
  rewrite Nat.add_0_r in Hloop. simpl in Hloop. rewrite Hloop. simpl.
  by rewrite app_nil_r.
Qed.

Lemma concat_fragment changes (k : nat) (fragment : list byte) :
  changes !! k = Some fragment →
  take (length fragment)
       (drop (sum_list (length <$> take k changes)) (concat changes))
  = fragment.
Proof.
  revert k. induction changes as [|c changes IH]; intros [|k] Hk;
    simplify_eq; csimpl in *.
  - simplify_eq. by rewrite drop_0, take_app_length.
  - rewrite drop_app_add. by apply IH.
Qed.

(** C9: [combine] returns (it never throws) one array whose length is the
    sum of the lengths of the fragments, and fragment [k] sits, byte for
    byte, at the offset given by the total length of the fragments before
    it. *)
Theorem combine_concatenates changes :
  ∃ combined,
    combine changes = Ok combined
    ∧ length combined = sum_list (length <$> changes)
    ∧ ∀ (k : nat) (fragment : list byte),
        changes !! k = Some fragment →
        take (length fragment)
             (drop (sum_list (length <$> take k changes)) combined)
        = fragment.
Proof.
  exists (concat changes). split; [apply combine_concat|]. split.
  - induction changes as [|c changes IH]; simpl; [done|].
    by rewrite length_app, IH.
  - intros k fragment. apply concat_fragment.
Qed.
End combine_facts.

Lemma combine_concatenates_witness :
  combine [[x01; x02]; []; [x03]] = Ok [x01; x02; x03]
  ∧ take 1 (drop 2 [x01; x02; x03]) = [x03].
Proof.
  destruct (combine_concatenates [[x01; x02]; []; [x03]])
    as (combined & Hrun & Hlen & Hfrag).
  vm_compute in Hrun. injection Hrun as <-.
  split; [reflexivity|].
  exact (Hfrag 2%nat [x03] eq_refl).
Defined.

(** ** [createLock] *)

Section createLock_facts.
Context `{Gated W} {A : Type}.
Implicit Types (a : M W A) (b : option (M W A)) (w : W).

Lemma createLock_free a b w :
  lock w = true →
  createLock a b w
  = (Some <$> (a (set_lock false w)).1, set_lock true (a (set_lock false w)).2).
Proof.
  intros Hfree. unfold createLock, try_finally, fmap, M_fmap.
  rewrite Hfree. by destruct (a (set_lock false w)).
Qed.

Lemma createLock_held a b w :
  lock w = false →
  createLock a b w
  = match b with
    | Some b => (Some <$> (b w).1, (b w).2)
    | None => (Ok None, w)
    end.
Proof.
  intros Hheld. unfold createLock. rewrite Hheld.
  destruct b as [b|]; [|done]. unfold fmap at 1, M_fmap. by destruct (b w).
Qed.
End createLock_facts.

(** C8: with the gate free, [withLock(action, elseAction)] is one run of
    [action] with the gate held, [elseAction] does not run, and the gate is
    free again afterwards whether [action] returned or threw; with the gate
    held, it is one run of [elseAction] when there is one and nothing
    otherwise; so a nested call made by a running action runs only the
    nested [elseAction]. *)
Theorem createLock_gate `{Gated W} {A : Type}
    (action : M W A) (elseAction : option (M W A)) (w : W) :
  (lock w = true →
     createLock action elseAction w
     = (Some <$> (action (set_lock false w)).1,
        set_lock true (action (set_lock false w)).2)
     ∧ lock (createLock action elseAction w).2 = true
     ∧ ∀ (outerElse : option (M W (option A))),
         createLock (createLock action elseAction) outerElse w
         = match elseAction with
           | Some b => (Some <$> (Some <$> (b (set_lock false w)).1),
                        set_lock true (b (set_lock false w)).2)
           | None => (Ok (Some None), w)
           end)
  ∧ (lock w = false →
     createLock action elseAction w
     = match elseAction with
       | Some b => (Some <$> (b w).1, (b w).2)
       | None => (Ok None, w)
       end).
Proof.
  split; [intros Hfree | apply createLock_held].
  split; [by apply createLock_free|]. split.
  - rewrite createLock_free by done. apply lock_set_lock.
  - intros outerElse. rewrite createLock_free by done.
    rewrite createLock_held by apply lock_set_lock.
    destruct elseAction as [b|]; [done|].
    simpl. by rewrite set_lock_set_lock, <- Hfree, set_lock_lock.
Qed.

Lemma createLock_gate_witness :
  (* free gate: the action runs once, the alternative does not *)
  createLock (say "a") (Some (say "b")) {| gate_free := true; trace := [] |}
  = (Ok (Some tt), {| gate_free := true; trace := ["a"] |})
  (* released although the action threw *)
  ∧ gate_free (createLock (say_and_throw "a") None
                 {| gate_free := true; trace := [] |}).2 = true
  (* a nested call runs the nested alternative only *)
  ∧ createLock (createLock (say "a") (Some (say "b"))) None
      {| gate_free := true; trace := [] |}
    = (Ok (Some (Some tt)), {| gate_free := true; trace := ["b"] |})
  (* held gate, no alternative: nothing runs *)
  ∧ createLock (say "a") None {| gate_free := false; trace := [] |}
    = (Ok None, {| gate_free := false; trace := [] |}).
Proof.
  assert (Hfree : lock {| gate_free := true; trace := [] |} = true)
    by reflexivity.
  assert (Hheld : lock {| gate_free := false; trace := [] |} = false)
    by reflexivity.
  destruct (proj1 (createLock_gate (say "a") (Some (say "b")) _) Hfree)
    as (Hrun & _ & Hnested).
  destruct (proj1 (createLock_gate (say_and_throw "a") None _) Hfree)
    as (_ & Hreleased & _).
  pose proof (proj2 (createLock_gate (say "a") None _) Hheld) as Hskip.
  split; [|split; [|split]].
  - rewrite Hrun. reflexivity.
  - exact Hreleased.
  - rewrite (Hnested None). reflexivity.
  - exact Hskip.
Defined.

(** ** [AutomergeMap] *)

Section AutomergeMap_facts.
Import AutomergeMap.
Context `{Realm}.
Variable itemCmp : JSValue → JSValue → bool.
Implicit Types (st : State) (key : string) (value : JSValue).
Implicit Types (o : OrdinaryObject).

Lemma is_undefined_true value : is_undefined value = true ↔ value = JUndefined.
Proof. by destruct value. Qed.


Lemma Object_keys_elem (o : gmap string JSValue) key :
  key ∈ Object_keys o ↔ is_Some (o !! key).
Proof.
  unfold Object_keys. rewrite list_elem_of_fmap. split.
  - intros ([k v] & -> & Hin%elem_of_map_to_list). by exists v.
  - intros [v Hv]. exists (key, v). split; [done|].
    by apply elem_of_map_to_list.
Qed.

Lemma own_lookup o key : own o !! key = o !! key.
Proof. reflexivity. Qed.

Lemma own_lookup_insert o key other value :
  (<[key := value]> o) !! other
  = if decide (key = other) then Some value else o !! other.
Proof.
  unfold lookup, OrdinaryObject_lookup, insert at 1, OrdinaryObject_insert.
  simpl. case_decide as Hkey.
  - subst. apply lookup_insert_eq.
  - by apply lookup_insert_ne.
Qed.

(** An assignment at a name other than [__proto__], and one at a name that
    is an own property, write the own property. *)
Lemma Object_set_ordinary o key value :
  key ≠ "__proto__" ∨ is_Some (o !! key) →
  Object_set o key value = <[key := value]> o.
Proof.
  intros Hkey. unfold Object_set.
  destruct (o !! key) as [old|] eqn:Hown; [done|].
  destruct Hkey as [Hkey | [old Hold]]; [|done].
  by rewrite bool_decide_eq_false_2.
Qed.

Lemma Object_get_insert o key other value :
  Object_get (<[key := value]> o) other
  = if decide (key = other) then value else Object_get o other.
Proof.
  unfold Object_get. rewrite own_lookup_insert. by case_decide.
Qed.

(** An assignment of [undefined] keeps the prototype, and writes the own
    property unless it went to the accessor, which ignores it. *)
Lemma Object_set_undefined o key :
  Object_set o key JUndefined = <[key := JUndefined]> o
  ∨ (o !! key = None ∧ key = "__proto__" ∧ Object_set o key JUndefined = o).
Proof.
  unfold Object_set. destruct (o !! key) as [old|] eqn:Hown; [by left|].
  destruct (bool_decide (key = "__proto__")) eqn:Hkey; simpl; [|by left].
  apply bool_decide_eq_true in Hkey.
  destruct (reaches_accessor (proto o)); [by right | by left].
Qed.







Lemma map_delete_run st key :
  delete key st
  = (Ok (get key st),
     {| selections := Object_set (selections st) key JUndefined;
        changed := changed st |}).
Proof. reflexivity. Qed.

(** [delete] of a key that is an own property. *)
Lemma map_delete_own st key :
  is_Some (selections st !! key) →
  delete key st
  = (Ok (get key st),
     {| selections := <[key := JUndefined]> (selections st);
        changed := changed st |}).
Proof.
  intros Hown. rewrite map_delete_run. by rewrite Object_set_ordinary by (by right).
Qed.

Lemma map_clear_loop (keyList : list string) st :
  (∀ key, key ∈ keyList → is_Some (selections st !! key)) →
  ∃ st', clear_loop keyList st = (Ok tt, st')
    ∧ changed st' = changed st
    ∧ proto (selections st') = proto (selections st)
    ∧ ∀ key, selections st' !! key
             = if decide (key ∈ keyList) then Some JUndefined
               else selections st !! key.
Proof.
  revert st. induction keyList as [|k keyList IH]; intros st Hown.
  - exists st. split_and!; [done..|]. intros key.
    by rewrite decide_False by apply not_elem_of_nil.
  - destruct (IH {| selections := <[k := JUndefined]> (selections st);
                    changed := changed st |}) as (st' & Hrun & Hlog & Hproto & Hsel).
    { intros key Hin. simpl. rewrite own_lookup_insert. case_decide; [done|].
      apply Hown. by right. }
    exists st'. split_and!; [| done | done |].
    + simpl. unfold mbind, M_bind.
      by rewrite map_delete_own by (apply Hown; by left).
    + intros key. rewrite Hsel. simpl. rewrite own_lookup_insert.
      destruct (decide (key ∈ keyList)) as [Hin|Hnotin].
      * by rewrite decide_True by (by right).
      * destruct (decide (k = key)) as [->|Hne].
        -- by rewrite decide_True by left.
        -- rewrite decide_False; [done|]. by intros [?|?]%elem_of_cons.
Qed.

(** What [clear()] does for every map: it returns without having emitted
    anything, and every key is still there, now holding [undefined]. *)
Lemma map_clear_run st :
  ∃ st', clear st = (Ok tt, st')
    ∧ changed st' = changed st
    ∧ (∀ key, key ∈ keys st' ↔ key ∈ keys st)
    ∧ (∀ key, key ∈ keys st → get key st' = JUndefined).
Proof.
  destruct (map_clear_loop (keys st) st) as (st' & Hrun & Hlog & _ & Hsel).
  { intros key Hin. by apply Object_keys_elem in Hin. }
  exists st'. split_and!; [done | done | |].
  - intros key. unfold keys at 1 2. rewrite !Object_keys_elem.
    rewrite !own_lookup, Hsel.
    destruct (decide _) as [Hin|]; [|done].
    apply Object_keys_elem in Hin. rewrite own_lookup in Hin. by split.
  - intros key Hin. unfold get, Object_get. by rewrite Hsel, decide_True.
Qed.

(** C3, on the map [{a: 1}]: [clear()] emits no event at all, and the key
    [a] is still listed by [keys()], with the value [undefined]. *)
Theorem map_clear_on_one_key :
  let st := {| AutomergeMap.selections := {["a" := JNum 1]};
               AutomergeMap.changed := [] |} in
  AutomergeMap.clear st
  = (Ok tt, {| AutomergeMap.selections := {["a" := JUndefined]};
               AutomergeMap.changed := [] |})
  ∧ AutomergeMap.keys (AutomergeMap.clear st).2 = ["a"]
  ∧ AutomergeMap.changed (AutomergeMap.clear st).2 = [].
Proof.
  assert (Hkeys : Object_keys ({["a" := JNum 1]} : gmap string JSValue) = ["a"]).
  { unfold Object_keys. by rewrite map_to_list_singleton. }
  assert (Hrun : AutomergeMap.clear
            {| AutomergeMap.selections := {["a" := JNum 1]};
               AutomergeMap.changed := [] |}
          = (Ok tt, {| AutomergeMap.selections := {["a" := JUndefined]};
                       AutomergeMap.changed := [] |})).
  { unfold AutomergeMap.clear, AutomergeMap.keys, gets, mbind, M_bind. simpl.
    rewrite Hkeys. simpl. unfold mbind, M_bind.
    rewrite map_delete_own by (by eexists). simpl.
    unfold OrdinaryObject_insert, singletonM at 2, OrdinaryObject_singleton.
    simpl. by rewrite insert_singleton_eq. }
  intros st. subst st. rewrite Hrun. split_and!; [done| |done].
  unfold AutomergeMap.keys, Object_keys. simpl. by rewrite map_to_list_singleton.
Qed.

End AutomergeMap_facts.

#[local] Existing Instance example_realm.





(** [map.set('a', 1)] twice: the second call is a no-op, one event in all. *)
Example map_set_twice_one_event :
  let st := {| AutomergeMap.selections := ∅; AutomergeMap.changed := [] |} in
  let st1 := (AutomergeMap.set strict_equals "a" (JNum 1) st).2 in
  let st2 := (AutomergeMap.set strict_equals "a" (JNum 1) st1).2 in
  AutomergeMap.changed st2 =
    [{| IObservableMap.type := IObservableMap.add;
        IObservableMap.key := "a";
        IObservableMap.oldValue := JUndefined;
        IObservableMap.newValue := JNum 1 |}].
Proof. vm_compute. reflexivity. Qed.

(** ** [AutomergeString] *)

Section AutomergeString_facts.
Implicit Types (s t : jsstring) (st : AutomergeString.State).

Lemma is_surrogate_high u : is_surrogate u = false → is_high_surrogate u = false.
Proof.
  unfold is_surrogate, is_high_surrogate.
  rewrite !andb_false_iff, !N.leb_gt. lia.
Qed.

Lemma spread_no_surrogates s : no_surrogates s → spread s = (λ u, [u]) <$> s.
Proof.
  induction 1 as [|u rest Hu Hrest IH]; [done|].
  simpl. rewrite (is_surrogate_high u Hu). simpl.
  destruct rest; [done|]. by rewrite IH.
Qed.


Lemma toString_units s : Text.toString ((λ u, [u]) <$> s) = s.
Proof.
  unfold Text.toString. induction s as [|u s IH]; csimpl; [done|].
  by rewrite IH.
Qed.

Lemma String_slice_inside (before middle after : jsstring) :
  String_slice (before ++ middle ++ after)
    (Z.of_nat (length before))
    (Z.of_nat (length before) + Z.of_nat (length middle))
  = middle.
Proof.
  unfold String_slice. rewrite !length_app.
  rewrite !(proj2 (Z.ltb_ge _ _)) by lia.
  rewrite !Z.min_l by lia.
  replace (Z.to_nat (_ + _ - _)) with (length middle) by lia.
  by rewrite Nat2Z.id, drop_app_length, take_app_length.
Qed.


(** What [remove] does on the range of a piece of the text, when the text
    holds one character per element. *)
Lemma string_remove_run st (before middle after : jsstring) :
  AutomergeString.amModel_text st
  = Some ((λ u, [u]) <$> (before ++ middle ++ after)) →
  AutomergeString.remove (Z.of_nat (length before))
    (Z.of_nat (length before) + Z.of_nat (length middle)) st
  = (Ok tt,
     {| AutomergeString.amModel_text := Some ((λ u, [u]) <$> (before ++ after));
        AutomergeString.changed := AutomergeString.changed st ++
          [{| IObservableString.type := IObservableString.remove;
              IObservableString.start := Z.of_nat (length before);
              IObservableString.end_ :=
                Z.of_nat (length before) + Z.of_nat (length middle);
              IObservableString.value := middle |}] |}).
Proof.
  intros Htext.
  unfold AutomergeString.remove, AutomergeString.Automerge_change, mbind, M_bind.
  rewrite Htext. simpl. rewrite toString_units, String_slice_inside.
  unfold Text.deleteAt. rewrite length_fmap, !length_app.
  rewrite !(proj2 (Z.ltb_ge _ _)) by lia. simpl.
  replace (Z.to_nat (_ + _ - _)) with (length middle) by lia.
  rewrite Nat2Z.id, <- fmap_take, <- fmap_drop, <- fmap_app.
  rewrite take_app_length, app_assoc, <- length_app, drop_app_length.
  done.
Qed.


End AutomergeString_facts.



(** ** Path addressing *)

Lemma setNested_defined obj path value :
  getNested obj path ≠ JUndefined →
  ∃ obj', setNested obj path value = Ok obj'.
Proof.
  revert obj. induction path as [|segment path IH]; intros obj Hget; simpl in *.
  - by eexists.
  - destruct obj as [| | | | | | |o]; try done.
    unfold prop. destruct (o !! segment) as [child|]; [|done]. simpl.
    destruct (IH child Hget) as [child' ->]. by eexists.
Qed.

Lemma getNested_setNested obj path value obj' :
  setNested obj path value = Ok obj' → getNested obj' path = value.
Proof.
  revert obj obj'. induction path as [|segment path IH]; intros obj obj' Hset;
    simpl in *.
  - by simplify_eq.
  - destruct obj as [| | | | | | |o]; try done.
    + destruct (setNested JUndefined path value) as [child|] eqn:Hchild;
        simplify_eq/=.
      rewrite lookup_singleton_eq. by eapply IH.
    + destruct (setNested (prop o segment) path value) as [child|] eqn:Hchild;
        simplify_eq/=.
      rewrite lookup_insert_eq. by eapply IH.
Qed.

Lemma setNested_getNested obj path :
  getNested obj path ≠ JUndefined →
  setNested obj path (getNested obj path) = Ok obj.
Proof.
  revert obj. induction path as [|segment path IH]; intros obj Hget; simpl in *.
  - done.
  - destruct obj as [| | | | | | |o]; try done.
    unfold prop. destruct (o !! segment) as [child|] eqn:Hchild; [|done].
    simpl. rewrite (IH child Hget). simpl. by rewrite insert_id.
Qed.

(** ** [AutomergeList] *)

Section AutomergeList_facts.
Import AutomergeList.
Variable path : list string.
Variable itemCmp : JSValue → JSValue → bool.
Implicit Types (w : World) (array : list JSValue) (index : Z).



(** C6: when [itemCmp(list.get(i), v)] holds for an index in bounds,
    [set(i, v)] emits no event, leaves the document tree as it was and makes
    no local change, so that no change-set goes out; it returns normally
    unless [v] is [undefined]. *)
Theorem list_set_same_is_noop w array (i : nat) old value :
  amDocPath (amDoc w) path = JArr array →
  array !! i = Some old →
  itemCmp old value = true →
  get path (Z.of_nat i) w = (Ok old, w)
  ∧ ∃ r w', set path itemCmp (Z.of_nat i) value w = (r, w')
      ∧ changed w' = changed w
      ∧ amDoc w' = amDoc w
      ∧ changes w' = changes w
      ∧ (value ≠ JUndefined → r = Ok tt).
Proof.
  intros Hlist Hold Hcmp.
  assert (Hread : Array_get array (Z.of_nat i) = old).
  { unfold Array_get. rewrite (proj2 (Z.ltb_ge _ _)) by lia.
    by rewrite Nat2Z.id, Hold. }
  split; [unfold get; by rewrite Hlist; simpl; rewrite Hread|].
  unfold set, waitOnAmDocInit, set_callback, withLock, createLock,
    try_finally, get, mbind at 1 2, M_bind, fmap, M_fmap.
  destruct (isInitialized w) eqn:Hinit; [|by eexists _, _].
  simpl. destruct (lock_var w) eqn:Hlock; [|by eexists _, _].
  rewrite Hlist. simpl. rewrite Hread.
  destruct (is_undefined value) eqn:Hvalue.
  - apply is_undefined_true in Hvalue. by eexists _, _.
  - rewrite Hcmp. by eexists _, _.
Qed.

(** C2, as amended: where no list exists at the path, [clear()] does
    nothing and emits nothing; on an existing list, empty or not, of an
    initialized document with the gate free, it emits exactly one [remove]
    event, whose [oldValues] are the contents before the call, and leaves
    the list empty. *)
Theorem list_clear_cases w :
  (truthy (amDocPath (amDoc w) path) = false → clear path w = (Ok tt, w))
  ∧ ∀ array,
      amDocPath (amDoc w) path = JArr array →
      isInitialized w = true → lock_var w = true →
      ∃ w', clear path w = (Ok tt, w')
        ∧ changed w' = changed w ++
            [{| IObservableList.type := IObservableList.remove;
                IObservableList.oldIndex := 0;
                IObservableList.newIndex := 0;
                IObservableList.newValues := [];
                IObservableList.oldValues := array |}]
        ∧ amDocPath (amDoc w') path = JArr [].
Proof.
  split.
  - intros Hnone. unfold clear, gets, mbind, M_bind. by rewrite Hnone.
  - intros array Hlist Hinit Hlock.
    destruct (setNested_defined (amDoc w) path (JArr [])) as [doc Hset].
    { unfold amDocPath in Hlist. by rewrite Hlist. }
    destruct w as [doc0 ready free queue log events]. simpl in *. subst.
    unfold clear, gets, waitOnAmDocInit, clear_callback, withLock, createLock,
      try_finally, Automerge_change, mbind, M_bind, fmap, M_fmap.
    simpl. rewrite Hlist. simpl. rewrite Hlist. simpl. rewrite Hset. simpl.
    eexists. split_and!; [done..|]. simpl.
    by eapply getNested_setNested.
Qed.

End AutomergeList_facts.

Lemma list_set_same_is_noop_witness :
  let w := {| AutomergeList.amDoc := JObj {["cells" := JArr [JNum 1; JNum 2]]};
              AutomergeList.isInitialized := true;
              AutomergeList.lock_var := true;
              AutomergeList.waiting := [];
              AutomergeList.changes := [];
              AutomergeList.changed := [] |} in
  AutomergeList.get ["cells"] 1 w = (Ok (JNum 2), w)
  ∧ ∃ r w', AutomergeList.set ["cells"] strict_equals 1 (JNum 2) w = (r, w')
      ∧ AutomergeList.changed w' = []
      ∧ AutomergeList.amDoc w' = AutomergeList.amDoc w
      ∧ AutomergeList.changes w' = []
      ∧ (JNum 2 ≠ JUndefined → r = Ok tt).
Proof.
  intros w.
  assert (Hlist : amDocPath (AutomergeList.amDoc w) ["cells"]
                  = JArr [JNum 1; JNum 2]).
  { unfold amDocPath. simpl. by rewrite lookup_singleton_eq. }
  exact (list_set_same_is_noop ["cells"] strict_equals w
           [JNum 1; JNum 2] 1 (JNum 2) (JNum 2) Hlist eq_refl eq_refl).
Defined.


(** A mutation made before initialization waits, and takes effect when the
    document is initialized. *)
Example list_set_waits_for_initialization :
  let w := {| AutomergeList.amDoc := JObj {["cells" := JArr [JNum 1; JNum 2]]};
              AutomergeList.isInitialized := false;
              AutomergeList.lock_var := true;
              AutomergeList.waiting := [];
              AutomergeList.changes := [];
              AutomergeList.changed := [] |} in
  let w1 := (AutomergeList.set ["cells"] strict_equals 0 (JNum 9) w).2 in
  let w2 := (AutomergeList.initialized w1).2 in
  amDocPath (AutomergeList.amDoc w1) ["cells"] = JArr [JNum 1; JNum 2]
  ∧ AutomergeList.changed w1 = []
  ∧ amDocPath (AutomergeList.amDoc w2) ["cells"] = JArr [JNum 9; JNum 2]
  ∧ AutomergeList.changed w2 =
      [{| IObservableList.type := IObservableList.set;
          IObservableList.oldIndex := 0;
          IObservableList.newIndex := 0;
          IObservableList.oldValues := [JNum 1];
          IObservableList.newValues := [JNum 9] |}]
  ∧ AutomergeList.waiting w2 = [].
Proof. split_and!; vm_compute; reflexivity. Qed.


Lemma list_clear_cases_witness :
  (let w := {| AutomergeList.amDoc := JObj ∅;
               AutomergeList.isInitialized := true;
               AutomergeList.lock_var := true;
               AutomergeList.waiting := [];
               AutomergeList.changes := [];
               AutomergeList.changed := [] |} in
   AutomergeList.clear ["cells"] w = (Ok tt, w))
  ∧ (let w := {| AutomergeList.amDoc := JObj {["cells" := JArr [JNum 1; JNum 2]]};
                 AutomergeList.isInitialized := true;
                 AutomergeList.lock_var := true;
                 AutomergeList.waiting := [];
                 AutomergeList.changes := [];
                 AutomergeList.changed := [] |} in
     ∃ w', AutomergeList.clear ["cells"] w = (Ok tt, w')
       ∧ AutomergeList.changed w' =
           [{| IObservableList.type := IObservableList.remove;
               IObservableList.oldIndex := 0;
               IObservableList.newIndex := 0;
               IObservableList.newValues := [];
               IObservableList.oldValues := [JNum 1; JNum 2] |}]
       ∧ amDocPath (AutomergeList.amDoc w') ["cells"] = JArr []).
Proof.
  split; intros w.
  - apply (proj1 (list_clear_cases ["cells"] w)). reflexivity.
  - apply (proj2 (list_clear_cases ["cells"] w) [JNum 1; JNum 2]);
      [|reflexivity..].
    unfold amDocPath. simpl. by rewrite lookup_singleton_eq.
Defined.

(** C2 fails on a list that exists and is empty, as [initObservables]
    leaves it: [clear()] emits a [remove] event with no old values. *)
Lemma list_clear_empty_emits :
  let w0 := {| AutomergeList.amDoc := JObj ∅;
               AutomergeList.isInitialized := true;
               AutomergeList.lock_var := true;
               AutomergeList.waiting := [];
               AutomergeList.changes := [];
               AutomergeList.changed := [] |} in
  let w := (AutomergeList.initObservables ["cells"] w0).2 in
  amDocPath (AutomergeList.amDoc w) ["cells"] = JArr []
  ∧ AutomergeList.length ["cells"] w = JNum 0
  ∧ AutomergeList.changed w = []
  ∧ AutomergeList.changed (AutomergeList.clear ["cells"] w).2 =
      [{| IObservableList.type := IObservableList.remove;
          IObservableList.oldIndex := 0;
          IObservableList.newIndex := 0;
          IObservableList.newValues := [];
          IObservableList.oldValues := [] |}]
  ∧ AutomergeList.changed (AutomergeList.clear ["cells"] w).2
    ≠ AutomergeList.changed w.
Proof.
  intros w0 w.
  assert (Hevents : AutomergeList.changed (AutomergeList.clear ["cells"] w).2 =
      [{| IObservableList.type := IObservableList.remove;
          IObservableList.oldIndex := 0;
          IObservableList.newIndex := 0;
          IObservableList.newValues := [];
          IObservableList.oldValues := [] |}])
    by (vm_compute; reflexivity).
  split_and!; [vm_compute; reflexivity.. | exact Hevents |].
  rewrite Hevents. discriminate.
Qed.

(** ** The listener for remote changes *)

Lemma bind_run {W A B} (m : M W A) (f : A → M W B) (w : W) :
  (m ≫= f) w
  = match m w with
    | (Ok a, w') => f a w'
    | (Throw e, w') => (Throw e, w')
    end.
Proof. reflexivity. Qed.

Section listener_facts.
Import AutomergeModelDB.
Variable A : AutomergeLib.
Hypothesis contract : AutomergeContract A.
Variable actorId : string.
Implicit Types (st : State A) (doc : Doc A) (changes : list byte).

Lemma with_amDoc_same st : with_amDoc st (amDoc st) = st.
Proof. by destruct st. Qed.

Lemma keeps_refl st : keeps A st st.
Proof. by split. Qed.

Lemma keeps_trans st1 st2 st3 : keeps A st1 st2 → keeps A st2 st3 → keeps A st1 st3.
Proof. intros [Hl1 Hr1] [Hl2 Hr2]. split; [congruence | auto]. Qed.

Lemma Automerge_change_ok st message callback tree :
  callback (root A (amDoc st)) = Ok tree →
  ∃ st', Automerge_change A message callback st = (Ok tt, st')
    ∧ root A (amDoc st') = tree
    ∧ keeps A st st'
    ∧ isInitialized st' = isInitialized st
    ∧ collaborators st' = collaborators st
    ∧ db st' = db st ∧ observing st' = observing st
    ∧ random st' = random st.
Proof.
  intros Hcallback. unfold Automerge_change.
  destruct (change_returns A contract _ message _ _ Hcallback) as [after Hchange].
  rewrite Hchange. eexists. split; [done|]. simpl.
  pose proof (change_root A contract _ _ _ _ Hchange) as Hroot.
  rewrite Hcallback in Hroot. split; [by simplify_eq|].
  split_and!; try done. split; [done|]. simpl. intros binary.
  by apply (change_keeps A contract _ _ _ _ _ Hchange).
Qed.

Lemma Automerge_change_throw st message callback e :
  callback (root A (amDoc st)) = Throw e →
  ∃ e', Automerge_change A message callback st = (Throw e', st).
Proof.
  intros Hcallback. unfold Automerge_change.
  destruct (change A (amDoc st) message callback) as [after|e'] eqn:Hchange.
  - apply (change_root A contract) in Hchange. congruence.
  - by eexists.
Qed.

Lemma ensure_users_run st :
  ∃ st', ensure_users A st = (Ok tt, st')
    ∧ truthy (prop (root A (amDoc st')) "users") = true
    ∧ keeps A st st'
    ∧ isInitialized st' = isInitialized st
    ∧ collaborators st' = collaborators st
    ∧ db st' = db st ∧ observing st' = observing st
    ∧ random st' = random st.
Proof.
  unfold ensure_users. rewrite bind_run. simpl.
  destruct (truthy (prop (root A (amDoc st)) "users")) eqn:Husers.
  - exists st. split_and!; try done; apply keeps_refl.
  - edestruct (Automerge_change_ok st "users") as (st' & -> & Hroot & Hrest);
      [done|].
    exists st'. split; [done|]. split; [|done].
    rewrite Hroot. unfold prop. by rewrite lookup_insert_eq.
Qed.

Lemma ensure_users_skip st :
  truthy (prop (root A (amDoc st)) "users") = true →
  ensure_users A st = (Ok tt, st).
Proof. intros Husers. unfold ensure_users. rewrite bind_run. simpl. by rewrite Husers. Qed.

Lemma ensure_actor_run st :
  truthy (prop (root A (amDoc st)) "users") = true →
  (stuck A st ∧ ∃ e, ensure_actor A actorId st = (Throw e, st))
  ∨ ∃ st' users,
      ensure_actor A actorId st = (Ok tt, st')
      ∧ prop (root A (amDoc st')) "users" = JObj users
      ∧ truthy (prop users actorId) = true
      ∧ keeps A st st'
      ∧ isInitialized st' = isInitialized st
      ∧ collaborators st' = collaborators st
      ∧ db st' = db st ∧ observing st' = observing st
      ∧ random st' = random st
      ∧ ∃ old, prop (root A (amDoc st)) "users" = JObj old.
Proof.
  intros Husers. unfold ensure_actor. rewrite bind_run.
  destruct (prop (root A (amDoc st)) "users") as [| | | | | | |users] eqn:Hprop;
    try done.
  1-4: left; split; [split; [by rewrite Hprop | by rewrite Hprop]|];
    simpl; apply Automerge_change_throw with TypeError; by rewrite Hprop.
  right. simpl. destruct (truthy (prop users actorId)) eqn:Hmine.
  - exists st, users. split_and!; try done; by eexists.
  - match goal with |- context [Automerge_change A ?message ?callback st] =>
      destruct (Automerge_change_ok st message callback
        (<["users" := JObj (<[actorId := JBool true]> users)]>
           (root A (amDoc st))))
        as (st' & -> & Hroot & Hrest); [by rewrite Hprop|]
    end.
    exists st', (<[actorId := JBool true]> users). split; [done|].
    rewrite Hroot. unfold prop. rewrite !lookup_insert_eq.
    destruct Hrest as (? & ? & ? & ? & ? & ?). split_and!; try done.
    by eexists.
Qed.

Lemma register_all_run (uuids : list string) st :
  ∃ st', register_all A uuids st = (Ok tt, st')
    ∧ amDoc st' = amDoc st
    ∧ lock_var st' = lock_var st
    ∧ isInitialized st' = isInitialized st
    ∧ (∀ uuid, uuid ∈ uuids → is_Some (collaborators st' !! uuid))
    ∧ (∀ uuid, is_Some (collaborators st !! uuid) →
               is_Some (collaborators st' !! uuid)).
Proof.
  revert st. induction uuids as [|uuid uuids IH]; intros st.
  - exists st. split_and!; try done. by intros uuid ?%elem_of_nil.
  - simpl. rewrite bind_run. unfold register at 1.
    destruct (collaborators st !! uuid) as [known|] eqn:Hknown.
    + destruct (IH st) as (st' & -> & Hdoc & Hlock & Hinit & Hall & Hmono).
      exists st'. split_and!; try done.
      intros uuid' [->|Hin]%elem_of_cons; [apply Hmono; by rewrite Hknown | auto].
    + match goal with |- context [register_all A uuids ?st0] =>
        destruct (IH st0) as (st' & -> & Hdoc & Hlock & Hinit & Hall & Hmono)
      end.
      simpl in *. exists st'. split_and!; try done.
      * intros uuid' [->|Hin]%elem_of_cons; [|auto].
        apply Hmono. by rewrite lookup_insert_eq.
      * intros uuid' Hsome. apply Hmono.
        destruct (decide (uuid = uuid')) as [->|Hne];
          [by rewrite lookup_insert_eq | by rewrite lookup_insert_ne].
Qed.

Lemma register_all_known (uuids : list string) st :
  (∀ uuid, uuid ∈ uuids → is_Some (collaborators st !! uuid)) →
  register_all A uuids st = (Ok tt, st).
Proof.
  induction uuids as [|uuid uuids IH]; intros Hknown; [done|].
  simpl. rewrite bind_run. unfold register at 1.
  destruct (Hknown uuid) as [known ->]; [by left|].
  apply IH. intros uuid' Hin. apply Hknown. by right.
Qed.

Lemma settled_run st :
  settled A actorId st → after_applyChanges A actorId st = (Ok tt, st).
Proof.
  intros (users & Husers & Hmine & Hknown & Hinit).
  unfold after_applyChanges.
  rewrite bind_run, ensure_users_skip by (by rewrite Husers).
  rewrite bind_run. unfold ensure_actor at 1. rewrite bind_run, Husers. simpl.
  rewrite Hmine. simpl.
  rewrite bind_run. unfold register_users at 1. rewrite bind_run. simpl.
  rewrite Husers. simpl. rewrite register_all_known by done.
  unfold initialize. by rewrite Hinit.
Qed.

Lemma stuck_run st :
  stuck A st → ∃ e, after_applyChanges A actorId st = (Throw e, st).
Proof.
  intros [Husers Hobject].
  unfold after_applyChanges. rewrite bind_run, ensure_users_skip by done.
  rewrite bind_run.
  destruct (ensure_actor_run st Husers)
    as [[_ [e ->]] | (st' & users & Hrest)]; [by eexists|].
  (* [ensure_actor] runs to its end only on an object *)
  destruct Hrest as (_ & _ & _ & _ & _ & _ & _ & _ & _ & old & Hold).
  by destruct (Hobject old).
Qed.

Lemma after_applyChanges_post st r st1 :
  after_applyChanges A actorId st = (r, st1) →
  (settled A actorId st1 ∨ stuck A st1) ∧ keeps A st st1.
Proof.
  unfold after_applyChanges. rewrite bind_run.
  destruct (ensure_users_run st) as (st_a & -> & Husers & Hkeeps_a & _).
  rewrite bind_run.
  destruct (ensure_actor_run st_a Husers)
    as [[Hstuck [e ->]] | (st_b & users & -> & Hprop & Hmine & Hkeeps_b & _)].
  { intros [= <- <-]. by split; [right|]. }
  rewrite bind_run. unfold register_users at 1. rewrite bind_run. simpl.
  rewrite Hprop. simpl.
  destruct (register_all_run (Object_keys users) st_b)
    as (st_c & -> & Hdoc & Hlock & _ & Hall & _).
  assert (Hkeeps_c : keeps A st st_c).
  { eapply keeps_trans; [done|]. eapply keeps_trans; [done|].
    split; [done|]. by rewrite Hdoc. }
  unfold initialize. destruct (isInitialized st_c) eqn:Hinit; intros [= <- <-].
  - split; [left|done]. exists users. by rewrite Hdoc.
  - split; [left|done]. exists users. simpl. by rewrite Hdoc.
Qed.

Lemma settled_with_amDoc st doc :
  settled A actorId st → root A doc = root A (amDoc st) →
  settled A actorId (with_amDoc st doc).
Proof.
  intros (users & Husers & Hrest) Hroot. exists users. simpl. by rewrite Hroot.
Qed.

Lemma stuck_with_amDoc st doc :
  stuck A st → root A doc = root A (amDoc st) → stuck A (with_amDoc st doc).
Proof. intros Hstuck Hroot. unfold stuck in *. simpl. by rewrite Hroot. Qed.

Lemma adopt_owner_state st : (adopt_owner A st).2 = st.
Proof.
  unfold adopt_owner.
  by destruct (truthy (prop (root A (amDoc st)) "ownerId")).
Qed.

(** Running the action of the listener again on the state it left changes
    nothing but, at most, the document, whose tree stays the same. *)
Lemma merge_twice changes st r1 st1 :
  merge A actorId changes st = (r1, st1) →
  lock_var st1 = lock_var st
  ∧ ∃ r2 doc, merge A actorId changes st1 = (r2, with_amDoc st1 doc)
      ∧ root A doc = root A (amDoc st1).
Proof.
  unfold merge. rewrite bind_run.
  destruct (adopt_owner A st) as [[[]|e] st_o] eqn:Howner.
  2: { (* [setActorId] threw: nothing was done, and nothing is done again *)
    intros [= <- <-].
    assert (st_o = st) as ->
      by (pose proof (adopt_owner_state st) as Hsame; by rewrite Howner in Hsame).
    split; [done|]. exists (Throw e), (amDoc st).
    by rewrite bind_run, Howner, with_amDoc_same. }
  assert (st_o = st) as ->
    by (pose proof (adopt_owner_state st) as Hsame; by rewrite Howner in Hsame).
  rewrite bind_run. unfold apply_remote at 1.
  destruct (applyChanges A (amDoc st) [changes]) as [applied|e] eqn:Happly.
  2: { (* [applyChanges] threw: likewise *)
    intros [= <- <-]. split; [done|]. exists (Throw e), (amDoc st).
    rewrite bind_run, Howner, bind_run. unfold apply_remote.
    by rewrite Happly, with_amDoc_same. }
  intros Htail.
  destruct (after_applyChanges_post _ _ _ Htail) as [Hpost [Hlock Hkept]].
  split; [done|].
  pose proof (Hkept changes (applyChanges_records A contract _ _ _ Happly))
    as Hreceived.
  (* the second run *)
  rewrite bind_run.
  destruct (adopt_owner A st1) as [[[]|e] st_o] eqn:Howner1.
  all: assert (st_o = st1) as ->
    by (pose proof (adopt_owner_state st1) as Hsame;
        by rewrite Howner1 in Hsame).
  2: { exists (Throw e), (amDoc st1). by rewrite with_amDoc_same. }
  rewrite bind_run. unfold apply_remote.
  destruct (applyChanges_received A contract _ _ Hreceived)
    as (again & -> & Hroot & _).
  destruct Hpost as [Hsettled | Hstuck].
  - exists (Ok tt), again. split; [|done].
    by apply settled_run, settled_with_amDoc.
  - destruct (stuck_run (with_amDoc st1 again)) as [e He];
      [by apply stuck_with_amDoc|].
    by exists (Throw e), again.
Qed.

Lemma onmessage_state (data : list byte) st :
  (onmessage A actorId (Some data) st).2
  = (createLock (merge A actorId data) None st).2.
Proof.
  unfold onmessage. rewrite bind_run.
  by destruct (createLock (merge A actorId data) None st) as [[] ?].
Qed.

(** C1: for every library that meets the contract of Automerge, every state
    of the replica and every remote change-set, the message applied a
    second time leaves the document tree that the first application left
    (the diff of the second application is empty), and leaves every other
    field of the replica as it was: nothing more is sent, registered or
    initialized. *)
Theorem remote_merge_idempotent (data : list byte) st :
  let once := (onmessage A actorId (Some data) st).2 in
  let twice := (onmessage A actorId (Some data) once).2 in
  root A (amDoc twice) = root A (amDoc once)
  ∧ twice = with_amDoc once (amDoc twice).
Proof.
  intros once twice. subst once twice. rewrite !onmessage_state.
  destruct (lock_var st) eqn:Hlock.
  - rewrite (createLock_free _ None st) by done.
    destruct (merge A actorId data (set_lock false st)) as [r1 st1] eqn:Hrun.
    destruct (merge_twice _ _ _ _ Hrun) as (Hheld & r2 & doc & Hagain & Hroot).
    simpl in Hheld. cbn [fst snd].
    assert (Hback : set_lock false (set_lock true st1) = st1).
    { rewrite set_lock_set_lock. pose proof (set_lock_lock st1) as Hsame.
      simpl in Hsame. by rewrite Hheld in Hsame. }
    rewrite (createLock_free _ None (set_lock true st1)) by done.
    cbn [fst snd]. rewrite Hback, Hagain. by simpl.
  - rewrite (createLock_held _ None st) by done. simpl.
    rewrite (createLock_held _ None st) by done. simpl.
    by rewrite with_amDoc_same.
Qed.

End listener_facts.

Lemma ToyAutomerge_contract : AutomergeContract ToyAutomerge.
Proof.
  split; simpl.
  - intros doc binary Hin. exists doc. unfold toy_apply.
    by rewrite bool_decide_eq_true_2.
  - intros doc binary doc' [= <-]. unfold toy_apply.
    case_bool_decide; [done|]. simpl. by left.
  - intros doc message callback doc'.
    destruct (callback (toy_tree doc)); by intros [= <-].
  - intros doc message callback tree ->. by eexists.
  - intros doc message callback doc' binary.
    destruct (callback (toy_tree doc)); by intros [= <-].
Qed.

Lemma remote_merge_idempotent_witness :
  let st := {| AutomergeModelDB.amDoc :=
                 ({| toy_tree := ∅; toy_history := [] |} : Doc ToyAutomerge);
               AutomergeModelDB.lock_var := true;
               AutomergeModelDB.isInitialized := false;
               AutomergeModelDB.collaborators := ∅;
               AutomergeModelDB.db := [("cells", true)];
               AutomergeModelDB.observing := [];
               AutomergeModelDB.sending := [];
               AutomergeModelDB.random := [3%nat] |} in
  let once :=
    (AutomergeModelDB.onmessage ToyAutomerge "ab12" (Some [x78; x01]) st).2 in
  let twice :=
    (AutomergeModelDB.onmessage ToyAutomerge "ab12" (Some [x78; x01]) once).2 in
  toy_tree (AutomergeModelDB.amDoc once)
  = <["users" := JObj {["ab12" := JBool true]}]> {["x" := JNum 1]}
  ∧ toy_tree (AutomergeModelDB.amDoc twice)
    = toy_tree (AutomergeModelDB.amDoc once)
  ∧ twice = AutomergeModelDB.with_amDoc once (AutomergeModelDB.amDoc twice).
Proof.
  intros st once twice. split; [vm_compute; reflexivity|].
  exact (remote_merge_idempotent ToyAutomerge ToyAutomerge_contract
           "ab12" [x78; x01] st).
Defined.

(* ===================================================================== *)
(** * Part III: further properties of the same code                       *)
(* ===================================================================== *)

(** ** [combine] *)

(** [combine] keeps the bytes and their order and nothing else: the payload
    of two batches of fragments is the payload of the first followed by the
    payload of the second, and the fragments of a batch may be merged into
    one beforehand without changing the payload. *)
Theorem combine_composes (first second : list (list byte)) :
  ∃ left right,
    combine first = Ok left ∧ combine second = Ok right
    ∧ combine (first ++ second) = Ok (left ++ right)
    ∧ combine [left; right] = combine (first ++ second).
Proof.
  exists (concat first), (concat second).
  rewrite !combine_concat, concat_app. simpl. by rewrite app_nil_r.
Qed.

(** ** [AutomergeMap] and [AutomergeJSON] *)

Section AutomergeMap_more.
Import AutomergeMap.
Context `{Realm}.
Variable itemCmp : JSValue → JSValue → bool.
Implicit Types (st : State) (key : string) (value : JSValue).

Lemma map_get_insert st key other value (events : list IObservableMap.IChangedArgs) :
  get other {| selections := <[key := value]> (selections st);
               changed := events |}
  = if decide (key = other) then value else get other st.
Proof. unfold get. simpl. apply Object_get_insert. Qed.

Lemma map_keys_insert st key other value (events : list IObservableMap.IChangedArgs) :
  other ∈ keys {| selections := <[key := value]> (selections st);
                  changed := events |}
  ↔ key = other ∨ other ∈ keys st.
Proof.
  unfold keys. simpl. rewrite !Object_keys_elem, lookup_insert.
  destruct (decide (key = other)) as [Hkey|Hkey].
  - split; [by left | by eexists].
  - split; [by right | by intros [?|?]].
Qed.





(** [values()] lists the values in the order in which [keys()] lists their
    keys. *)
Theorem map_values_of_keys st :
  values st = (λ key, get key st) <$> keys st.
Proof.
  unfold values, keys, Object_keys, get, Object_get.
  assert (Hall : ∀ entry, entry ∈ map_to_list (own (selections st)) →
                          selections st !! entry.1 = Some entry.2).
  { intros [key value]. apply elem_of_map_to_list. }
  induction (map_to_list (own (selections st))) as [|entry entries IH]; [done|].
  csimpl. rewrite (Hall entry) by left. simpl.
  rewrite IH; [done|]. intros other Hin. apply Hall. by right.
Qed.

Section toJSON.
Variable deepCopy : JSValue → JSValue.

Lemma toJSON_loop (keyList : list string) st (out : gmap string JSValue) key :
  foldl (λ out key,
           let value := get key st in
           if negb (is_undefined value) then <[key := deepCopy value]> out
           else out)
        out keyList !! key
  = if bool_decide (key ∈ keyList) && negb (is_undefined (get key st))
    then Some (deepCopy (get key st)) else out !! key.
Proof.
  revert out. induction keyList as [|k keyList IH]; intros out; simpl.
  - done.
  - rewrite IH. destruct (is_undefined (get key st)) eqn:Hvalue; simpl.
    + rewrite !andb_false_r. destruct (decide (k = key)) as [->|Hne].
      * by rewrite Hvalue.
      * destruct (is_undefined (get k st)); simpl; [done|].
        by rewrite lookup_insert_ne.
    + rewrite !andb_true_r. destruct (decide (key ∈ keyList)) as [Hin|Hnotin].
      * rewrite !bool_decide_eq_true_2; [done | by right | done].
      * rewrite (bool_decide_eq_false_2 (key ∈ keyList)) by done.
        destruct (decide (k = key)) as [->|Hne].
        -- rewrite bool_decide_eq_true_2 by left. rewrite Hvalue. simpl.
           by rewrite lookup_insert_eq.
        -- rewrite bool_decide_eq_false_2 by (by intros [?|?]%elem_of_cons).
           destruct (is_undefined (get k st)); simpl; [done|].
           by rewrite lookup_insert_ne.
Qed.

Lemma toJSON_at st key :
  AutomergeJSON.toJSON deepCopy st !! key
  = if bool_decide (key ∈ keys st) && negb (is_undefined (get key st))
    then Some (deepCopy (get key st)) else None.
Proof. unfold AutomergeJSON.toJSON. by rewrite toJSON_loop, lookup_empty. Qed.

(** [toJSON()] has a key exactly when the key is listed by [keys()], that
    is, is an own property of [selections], with a value other than
    [undefined], and then holds the deep copy of that value; what [get]
    finds in a prototype is not serialized. *)
Theorem toJSON_lookup st key :
  AutomergeJSON.toJSON deepCopy st !! key
  = match selections st !! key with
    | Some value =>
      if is_undefined value then None else Some (deepCopy value)
    | None => None
    end.
Proof.
  rewrite toJSON_at. unfold get, Object_get.
  destruct (selections st !! key) as [value|] eqn:Hown.
  - rewrite bool_decide_eq_true_2; [by destruct (is_undefined value)|].
    apply Object_keys_elem. rewrite own_lookup. by eexists.
  - rewrite bool_decide_eq_false_2; [done|].
    unfold keys. rewrite Object_keys_elem, own_lookup, Hown. by intros [].
Qed.

(** The keys that [delete] and [clear] leave behind with the value
    [undefined] are not serialized: after [delete(key)] the key is missing
    from [toJSON()] and the others are as before, and after [clear()]
    [toJSON()] is empty. *)
Theorem toJSON_after_delete_and_clear st key :
  AutomergeJSON.toJSON deepCopy (delete key st).2 !! key = None
  ∧ (∀ other, other ≠ key →
       AutomergeJSON.toJSON deepCopy (delete key st).2 !! other
       = AutomergeJSON.toJSON deepCopy st !! other)
  ∧ AutomergeJSON.toJSON deepCopy (clear st).2 = ∅.
Proof.
  rewrite map_delete_run. simpl. split_and!.
  - destruct (Object_set_undefined (selections st) key)
      as [-> | (Hown & _ & ->)]; rewrite toJSON_at.
    + by rewrite map_get_insert, decide_True, andb_false_r.
    + rewrite bool_decide_eq_false_2; [done|].
      unfold keys. simpl. rewrite Object_keys_elem, own_lookup, Hown.
      by intros [].
  - intros other Hother.
    destruct (Object_set_undefined (selections st) key)
      as [-> | (_ & _ & ->)]; [|by destruct st].
    rewrite !toJSON_at, map_get_insert, decide_False by done.
    match goal with |- context [bool_decide (other ∈ keys ?st1)] =>
      assert (Hsame : bool_decide (other ∈ keys st1)
                      = bool_decide (other ∈ keys st))
    end.
    { apply bool_decide_ext. rewrite map_keys_insert.
      split; [by intros [?|?] | by right]. }
    by rewrite Hsame.
  - destruct (map_clear_run st) as (st' & -> & _ & Hkeys & Hgone). simpl.
    apply map_eq. intros other. rewrite toJSON_at, lookup_empty.
    destruct (decide (other ∈ keys st')) as [Hin|Hout].
    + by rewrite (Hgone other), andb_false_r by (by apply Hkeys).
    + by rewrite bool_decide_eq_false_2.
Qed.

End toJSON.

End AutomergeMap_more.




(** ** [AutomergeString] *)

Section AutomergeString_more.
Implicit Types (s t : jsstring) (st : AutomergeString.State) (elems : Text.t).

Lemma toString_spread_both t :
  Text.toString (spread t) = t
  ∧ ∀ u, Text.toString (spread (u :: t)) = u :: t.
Proof.
  unfold Text.toString. induction t as [|v rest [IH1 IH2]]; [done|].
  split; [apply IH2|]. intros u. simpl.
  destruct (is_high_surrogate u && is_low_surrogate v); simpl.
  - by rewrite IH1.
  - f_equal. apply IH2.
Qed.

Lemma toString_spread t : Text.toString (spread t) = t.
Proof. apply toString_spread_both. Qed.

Lemma toString_stored_both t :
  Text.toString (stored <$> spread t) = stored t
  ∧ ∀ u, Text.toString (stored <$> spread (u :: t)) = stored (u :: t).
Proof.
  unfold Text.toString. induction t as [|v rest [IH1 IH2]]; [done|].
  split; [apply IH2|]. intros u.
  change (spread (u :: v :: rest))
    with (if is_high_surrogate u && is_low_surrogate v
          then [u; v] :: spread rest else [u] :: spread (v :: rest)).
  change (stored (u :: v :: rest))
    with (if is_high_surrogate u && is_low_surrogate v
          then u :: v :: stored rest
          else (if is_surrogate u then 0xFFFD%N else u) :: stored (v :: rest)).
  destruct (is_high_surrogate u && is_low_surrogate v) eqn:Hpair; csimpl.
  - rewrite Hpair. simpl. by rewrite IH1.
  - f_equal. apply IH2.
Qed.

Lemma toString_stored t : Text.toString (stored <$> spread t) = stored t.
Proof. apply toString_stored_both. Qed.

Lemma stored_no_surrogates t : no_surrogates t → stored t = t.
Proof.
  induction 1 as [|u rest Hu Hrest IH]; [done|].
  simpl. rewrite (is_surrogate_high u Hu), Hu. simpl.
  destruct rest; [done|]. by rewrite IH.
Qed.

Lemma toString_app elems1 elems2 :
  Text.toString (elems1 ++ elems2) = Text.toString elems1 ++ Text.toString elems2.
Proof. apply concat_app. Qed.

(** [insert(index, text)], for every text, surrogates or not: without a
    [text] in the document it is a [TypeError] and with an index outside
    [0, number of elements] a [RangeError], both leaving the state as it
    was and emitting nothing; otherwise the new text is the elements before
    the index, then [text] as Automerge keeps it, then the elements from
    the index on, and exactly one event is emitted, which carries [text] as
    it was given; a text without surrogates is kept as it is. *)
Theorem string_insert_effect st (index : Z) t :
  (AutomergeString.amModel_text st = None →
     AutomergeString.insert index t st = (Throw TypeError, st))
  ∧ (no_surrogates t → stored t = t)
  ∧ ∀ elems, AutomergeString.amModel_text st = Some elems →
      (index < 0 ∨ Z.of_nat (length elems) < index →
         AutomergeString.insert index t st = (Throw RangeError, st))
      ∧ (0 ≤ index ≤ Z.of_nat (length elems) →
         ∃ st', AutomergeString.insert index t st = (Ok tt, st')
           ∧ AutomergeString.text st'
             = Text.toString (take (Z.to_nat index) elems) ++ stored t
               ++ Text.toString (drop (Z.to_nat index) elems)
           ∧ AutomergeString.changed st' = AutomergeString.changed st ++
               [{| IObservableString.type := IObservableString.insert;
                   IObservableString.start := index;
                   IObservableString.end_ := index + Z.of_nat (length t);
                   IObservableString.value := t |}]).
Proof.
  unfold AutomergeString.insert, AutomergeString.Automerge_change.
  split; [intros Hnone | split; [apply stored_no_surrogates|];
          intros elems Htext; split; intros Hindex];
    rewrite bind_run.
  - by rewrite Hnone.
  - rewrite Htext. simpl. unfold Text.insertAt.
    destruct Hindex as [Hneg | Hbig].
    + by rewrite (proj2 (Z.ltb_lt _ _) Hneg).
    + by rewrite (proj2 (Z.ltb_lt _ _) Hbig), orb_true_r.
  - rewrite Htext. simpl. unfold Text.insertAt.
    rewrite !(proj2 (Z.ltb_ge _ _)) by lia. simpl.
    eexists. split; [done|]. split; [|done].
    unfold AutomergeString.text. simpl.
    by rewrite !toString_app, toString_stored.
Qed.

(** [clear()] emits nothing and leaves the empty text; the document it
    leaves has no [text] at all, so that every later [insert] or [remove]
    is a [TypeError] that changes nothing. *)
Theorem string_clear_then_edit st (index start end_ : Z) t :
  ∃ st', AutomergeString.clear st = (Ok tt, st')
    ∧ AutomergeString.text st' = []
    ∧ AutomergeString.changed st' = AutomergeString.changed st
    ∧ AutomergeString.insert index t st' = (Throw TypeError, st')
    ∧ AutomergeString.remove start end_ st' = (Throw TypeError, st').
Proof. by eexists. Qed.

(** [remove(start, end)] on a text [s] without surrogates, for
    [start <= end <= s.length]: the text loses the range, and the one event
    emitted carries in [value] exactly the characters removed. *)
Theorem string_remove_range st s (start end_ : nat) :
  AutomergeString.amModel_text st = Some (spread s) →
  no_surrogates s → (start ≤ end_ ≤ length s)%nat →
  ∃ st' removed,
    AutomergeString.remove (Z.of_nat start) (Z.of_nat end_) st = (Ok tt, st')
    ∧ s = take start s ++ removed ++ drop end_ s
    ∧ length removed = (end_ - start)%nat
    ∧ AutomergeString.text st' = take start s ++ drop end_ s
    ∧ AutomergeString.changed st' = AutomergeString.changed st ++
        [{| IObservableString.type := IObservableString.remove;
            IObservableString.start := Z.of_nat start;
            IObservableString.end_ := Z.of_nat end_;
            IObservableString.value := removed |}].
Proof.
  intros Htext Hs Hrange. rewrite (spread_no_surrogates s Hs) in Htext.
  set (before := take start s). set (middle := take (end_ - start) (drop start s)).
  set (after := drop end_ s).
  assert (Hsplit : s = before ++ middle ++ after).
  { subst before middle after.
    rewrite <- (take_drop start s) at 1. f_equal.
    rewrite <- (take_drop (end_ - start) (drop start s)) at 1. f_equal.
    rewrite drop_drop. f_equal. lia. }
  assert (Hbefore : length before = start)
    by (subst before; rewrite length_take; lia).
  assert (Hmiddle : length middle = (end_ - start)%nat)
    by (subst middle; rewrite length_take, length_drop; lia).
  rewrite Hsplit in Htext.
  pose proof (string_remove_run st before middle after Htext) as Hrun.
  rewrite Hbefore, Hmiddle in Hrun.
  replace (Z.of_nat start + Z.of_nat (end_ - start)) with (Z.of_nat end_)
    in Hrun by lia.
  eexists _, middle. split; [exact Hrun|]. split; [done|]. split; [done|].
  split; [|done]. unfold AutomergeString.text. simpl. apply toString_units.
Qed.

End AutomergeString_more.

Lemma string_insert_effect_witness :
  let st := {| AutomergeString.amModel_text := Some (spread (utf16 "ab"));
               AutomergeString.changed := [] |} in
  AutomergeString.insert 3 (utf16 "c") st = (Throw RangeError, st)
  ∧ ∃ st', AutomergeString.insert 2 [0xD83D; 0xDE00]%N st = (Ok tt, st')
      ∧ AutomergeString.text st' = utf16 "ab" ++ [0xD83D; 0xDE00]%N.
Proof.
  intros st.
  destruct (proj2 (proj2 (string_insert_effect st 3 (utf16 "c")))
              (spread (utf16 "ab")) eq_refl) as [Hthrow _].
  destruct (proj2 (proj2 (string_insert_effect st 2 [0xD83D; 0xDE00]%N))
              (spread (utf16 "ab")) eq_refl) as [_ Hrun].
  split; [apply Hthrow; right; simpl; lia|].
  destruct Hrun as (st' & Hrun & Htext & _); [simpl; lia|].
  exists st'. split; [exact Hrun|]. rewrite Htext. reflexivity.
Defined.

Lemma string_remove_range_witness :
  let st := {| AutomergeString.amModel_text := Some (spread (utf16 "hello"));
               AutomergeString.changed := [] |} in
  ∃ st', AutomergeString.remove 1 3 st = (Ok tt, st')
    ∧ AutomergeString.text st' = utf16 "hlo"
    ∧ AutomergeString.changed st' =
        [{| IObservableString.type := IObservableString.remove;
            IObservableString.start := 1;
            IObservableString.end_ := 3;
            IObservableString.value := utf16 "el" |}].
Proof.
  intros st.
  assert (Hs : no_surrogates (utf16 "hello")) by (repeat constructor).
  assert (Hrange : (1 ≤ 3 ≤ length (utf16 "hello"))%nat) by (simpl; lia).
  destruct (string_remove_range st (utf16 "hello") 1 3 eq_refl Hs Hrange)
    as (st' & removed & Hrun & Hsplit & Hlen & Htext & Hevents).
  exists st'. split; [exact Hrun|]. split; [exact Htext|].
  rewrite Hevents. simpl. do 3 f_equal.
  destruct removed as [|u [|v [|? ?]]]; try discriminate Hlen.
  by injection Hsplit as <- <-.
Defined.

(** ** [AutomergeList]: the other methods *)

Lemma setNested_setNested obj path first second obj1 :
  setNested obj path first = Ok obj1 →
  setNested obj1 path second = setNested obj path second.
Proof.
  revert obj obj1. induction path as [|segment path IH]; intros obj obj1 Hset;
    simpl in *; [done|].
  destruct obj as [| | | | | | |o]; try done.
  - destruct (setNested JUndefined path first) as [child|] eqn:Hchild;
      simplify_eq/=.
    unfold prop. rewrite lookup_singleton_eq. simpl.
    rewrite (IH _ _ Hchild).
    destruct (setNested JUndefined path second); simpl; [|done].
    by rewrite insert_singleton_eq.
  - destruct (setNested (prop o segment) path first) as [child|] eqn:Hchild;
      simplify_eq/=.
    unfold prop at 1. rewrite lookup_insert_eq. simpl.
    rewrite (IH _ _ Hchild).
    destruct (setNested (prop o segment) path second); simpl; [|done].
    by rewrite insert_insert_eq.
Qed.

Lemma list_written_start doc path array :
  getNested doc path = JArr array → list_written doc path doc array.
Proof.
  intros Hlist. split; [done|]. rewrite <- Hlist.
  apply setNested_getNested. by rewrite Hlist.
Qed.

Lemma list_written_same doc path doc1 array :
  getNested doc path = JArr array → list_written doc path doc1 array →
  doc1 = doc.
Proof.
  intros Hlist [_ Hset]. rewrite <- Hlist in Hset.
  rewrite setNested_getNested in Hset by (by rewrite Hlist). by simplify_eq.
Qed.

(** An operation on the list at a path writes the new contents there. *)
Lemma draft_list_step {A} doc path doc1 array made
    (f : list JSValue * bool → Res (A * (list JSValue * bool)))
    a array' made' :
  list_written doc path doc1 array →
  f (array, made) = Ok (a, (array', made')) →
  ∃ doc2,
    AutomergeListBulk.on_list (doc1, made) path f = Ok (a, (doc2, made'))
    ∧ list_written doc path doc2 array'.
Proof.
  intros [Hlist Hset] Hf. unfold AutomergeListBulk.on_list. simpl.
  rewrite Hlist. simpl. rewrite Hf. simpl.
  destruct (setNested_defined doc1 path (JArr array')) as [doc2 Hset2];
    [by rewrite Hlist|].
  rewrite Hset2. simpl. exists doc2. split; [done|]. split.
  - by eapply getNested_setNested.
  - by rewrite <- (setNested_setNested _ _ _ _ _ Hset).
Qed.

(** *** Assignments on a list of a draft *)

Lemma strict_equals_eq (first second : JSValue) :
  strict_equals first second = true → first = second.
Proof.
  destruct first, second; simpl; try done.
  - by intros ->%bool_decide_eq_true.
  - by intros ->%Z.eqb_eq.
  - by intros ->%bool_decide_eq_true.
Qed.

Lemma insert_at_middle (before after : list JSValue) old value :
  <[length before := value]> (before ++ old :: after) = before ++ value :: after.
Proof. by rewrite insert_app_r_alt, Nat.sub_diag by done. Qed.

Lemma lookup_after_middle (before after : list JSValue) first second :
  (before ++ first :: second :: after) !! S (length before) = Some second.
Proof.
  rewrite lookup_app_r by lia.
  by replace (S (length before) - length before)%nat with 1%nat by lia.
Qed.

(** An assignment inside the list, of a value that Automerge accepts: the
    element is the value afterwards, and an operation has been made if one
    had been, or if the element was another value. *)
Lemma Draft_assign_middle fresh (before after : list JSValue) old made value :
  fresh = true ∨ is_object value = false →
  ∃ made',
    Draft_assign fresh (before ++ old :: after, made) (length before) value
    = Ok (before ++ value :: after, made')
    ∧ (made = true → made' = true)
    ∧ (strict_equals old value = false → made' = true).
Proof.
  intros Haccepted. unfold Draft_assign. simpl.
  replace (negb fresh && is_object value) with false
    by (destruct Haccepted as [-> | ->]; [done | by rewrite andb_false_r]).
  rewrite list_lookup_middle by done.
  destruct (strict_equals old value) eqn:Hsame.
  - apply strict_equals_eq in Hsame as ->. by exists made.
  - exists true. by rewrite insert_at_middle.
Qed.

(** An assignment at the length of the list appends. *)
Lemma Draft_assign_end fresh (array : list JSValue) made value :
  fresh = true ∨ is_object value = false →
  Draft_assign fresh (array, made) (length array) value
  = Ok (array ++ [value], true).
Proof.
  intros Haccepted. unfold Draft_assign. simpl.
  replace (negb fresh && is_object value) with false
    by (destruct Haccepted as [-> | ->]; [done | by rewrite andb_false_r]).
  rewrite lookup_ge_None_2 by done. by rewrite bool_decide_eq_true_2.
Qed.

(** An assignment of an object that is in the list already is refused. *)
Lemma Draft_copy_object (array : list JSValue) made index source value :
  array !! source = Some value → is_object value = true →
  Draft_copy (array, made) index source = Throw RangeError.
Proof.
  intros Hsource Hobject. unfold Draft_copy, Draft_assign. simpl.
  rewrite Hsource. simpl. by rewrite Hobject.
Qed.

(** The loop [for (i = from; i !== to; ++i) array[i] = array[i + 1]] over
    values that are not objects. *)
Lemma shift_down_loop (before mid after : list JSValue) first made :
  primitives mid →
  ∃ made',
    foldl (λ draft i, draft ← draft; Draft_copy draft i (S i))
          (Ok (before ++ first :: mid ++ after, made))
          (seq (length before) (length mid))
    = Ok (before ++ mid ++ default first (last mid) :: after, made')
    ∧ (made = true → made' = true).
Proof.
  revert before first made.
  induction mid as [|next mid IH]; intros before first made Hmid.
  - by exists made.
  - apply Forall_cons in Hmid as [Hnext Hmid]. simpl.
    unfold Draft_copy at 2. simpl. rewrite lookup_after_middle. simpl.
    destruct (Draft_assign_middle false before (next :: mid ++ after) first
                made next) as (made1 & -> & Hmade1 & _); [by right|].
    destruct (IH (before ++ [next]) next made1 Hmid)
      as (made2 & Hloop & Hmade2).
    rewrite length_app, Nat.add_1_r in Hloop. rewrite <- !app_assoc in Hloop.
    simpl in Hloop. rewrite Hloop. exists made2. split; [|auto].
    destruct mid as [|following mid]; [reflexivity|].
    change (last (next :: following :: mid)) with (last (following :: mid)).
    destruct (last (following :: mid)) eqn:Hlast; [done|].
    by apply last_None in Hlast.
Qed.

(** The loop [for (i = from; i !== to; --i) array[i] = array[i - 1]] over
    values that are not objects. *)
Lemma shift_up_loop (before mid after : list JSValue) last made :
  primitives mid →
  ∃ made',
    foldl (λ draft i, draft ← draft; Draft_copy draft i (pred i))
          (Ok (before ++ mid ++ last :: after, made))
          (reverse (seq (S (length before)) (length mid)))
    = Ok (before ++ hd last mid :: mid ++ after, made')
    ∧ (made = true → made' = true).
Proof.
  revert after last made.
  induction mid as [|previous mid IH] using rev_ind;
    intros after last made Hmid.
  - by exists made.
  - apply Forall_app in Hmid as [Hmid [Hprevious _]%Forall_cons].
    rewrite length_app, Nat.add_1_r, seq_S, reverse_snoc. simpl.
    unfold Draft_copy at 2. simpl.
    replace (before ++ (mid ++ [previous]) ++ last :: after)
      with ((before ++ mid) ++ previous :: last :: after)
      by (by rewrite <- !app_assoc).
    replace (length before + length mid)%nat with (length (before ++ mid))
      by (by rewrite length_app).
    rewrite list_lookup_middle by done. simpl.
    replace ((before ++ mid) ++ previous :: last :: after)
      with ((before ++ mid ++ [previous]) ++ last :: after)
      by (by rewrite <- !app_assoc).
    replace (S (length (before ++ mid)))
      with (length (before ++ mid ++ [previous]))
      by (rewrite !length_app; simpl; lia).
    destruct (Draft_assign_middle false (before ++ mid ++ [previous]) after
                last made previous) as (made1 & -> & Hmade1 & _); [by right|].
    replace ((before ++ mid ++ [previous]) ++ previous :: after)
      with (before ++ mid ++ previous :: previous :: after)
      by (by rewrite <- !app_assoc).
    destruct (IH (previous :: after) previous made1 Hmid)
      as (made2 & -> & Hmade2).
    exists made2. split; [|auto].
    rewrite <- !app_assoc. simpl. by destruct mid.
Qed.

(** [ArrayExt.insert] on a list of a draft whose elements from the index on
    are not objects: the value is put at the index, and an operation is
    made. *)
Lemma insert_run (before after : list JSValue) made value :
  primitives after →
  ArrayExt.insert (before ++ after, made) (Z.of_nat (length before)) value
  = Ok (before ++ value :: after, true).
Proof.
  intros Hafter. unfold ArrayExt.insert. simpl. rewrite length_app.
  rewrite (proj2 (Z.ltb_ge (Z.of_nat (length before)) 0)) by lia.
  rewrite Z.min_l, Nat2Z.id by lia.
  replace (length before + length after - length before)%nat
    with (length after) by lia.
  destruct after as [|last mid _] using rev_ind.
  - simpl. rewrite app_nil_r. by apply Draft_assign_end; left.
  - apply Forall_app in Hafter as [Hmid [Hlast _]%Forall_cons].
    rewrite length_app, Nat.add_1_r, seq_S, reverse_snoc. simpl.
    unfold Draft_copy at 2. simpl.
    replace (before ++ mid ++ [last]) with ((before ++ mid) ++ [last])
      by (by rewrite <- app_assoc).
    replace (length before + length mid)%nat with (length (before ++ mid))
      by (by rewrite length_app).
    rewrite list_lookup_middle by done. simpl.
    replace (S (length (before ++ mid)))
      with (length ((before ++ mid) ++ [last]))
      by (rewrite !length_app; simpl; lia).
    rewrite Draft_assign_end by (by right). simpl.
    replace (((before ++ mid) ++ [last]) ++ [last])
      with (before ++ mid ++ last :: [last]) by (by rewrite <- !app_assoc).
    destruct (shift_up_loop before mid [last] last true Hmid)
      as (made1 & -> & Hmade1).
    simpl. rewrite (Hmade1 eq_refl).
    destruct (Draft_assign_middle true before (mid ++ [last]) (hd last mid)
                true value) as (made2 & -> & Hmade2 & _); [by left|].
    by rewrite (Hmade2 eq_refl).
Qed.

(** [ArrayExt.move] towards the end, over values that are not objects. *)
Lemma move_run_down (before mid after : list JSValue) value made :
  mid ≠ [] → primitives (value :: mid) →
  ∃ made',
    ArrayExt.move (before ++ value :: mid ++ after, made)
      (Z.of_nat (length before)) (Z.of_nat (length before + length mid))
    = Ok (before ++ mid ++ value :: after, made')
    ∧ (strict_equals (default value (last mid)) value = false → made' = true).
Proof.
  intros Hmid [Hvalue Hprimitives]%Forall_cons.
  assert (0 < length mid)%nat by (destruct mid; [done | simpl; lia]).
  unfold ArrayExt.move. simpl. rewrite !length_app. simpl. rewrite length_app.
  rewrite (proj2 (Z.leb_gt _ _)) by lia.
  rewrite (proj2 (Z.ltb_ge (Z.of_nat (length before)) 0)) by lia.
  rewrite (proj2 (Z.ltb_ge (Z.of_nat (length before + length mid)) 0)) by lia.
  rewrite !Z.min_l, !Nat2Z.id by lia.
  rewrite bool_decide_eq_false_2 by lia.
  rewrite bool_decide_eq_true_2 by lia.
  rewrite list_lookup_middle by done. simpl.
  replace (length before + length mid - length before)%nat
    with (length mid) by lia.
  destruct (shift_down_loop before mid after value made Hprimitives)
    as (made1 & -> & _).
  simpl.
  replace (before ++ mid ++ default value (last mid) :: after)
    with ((before ++ mid) ++ default value (last mid) :: after)
    by (by rewrite <- app_assoc).
  replace (length before + length mid)%nat with (length (before ++ mid))
    by (by rewrite length_app).
  destruct (Draft_assign_middle false (before ++ mid) after
              (default value (last mid)) made1 value)
    as (made2 & -> & _ & Hmade2); [by right|].
  exists made2. by rewrite <- app_assoc.
Qed.

(** [ArrayExt.move] towards the start, over values that are not objects. *)
Lemma move_run_up (before mid after : list JSValue) value made :
  mid ≠ [] → primitives (value :: mid) →
  ∃ made',
    ArrayExt.move (before ++ mid ++ value :: after, made)
      (Z.of_nat (length before + length mid)) (Z.of_nat (length before))
    = Ok (before ++ value :: mid ++ after, made')
    ∧ (strict_equals (hd value mid) value = false → made' = true).
Proof.
  intros Hmid [Hvalue Hprimitives]%Forall_cons.
  assert (0 < length mid)%nat by (destruct mid; [done | simpl; lia]).
  unfold ArrayExt.move. simpl. rewrite !length_app. simpl.
  rewrite (proj2 (Z.leb_gt _ _)) by lia.
  rewrite (proj2 (Z.ltb_ge (Z.of_nat (length before)) 0)) by lia.
  rewrite (proj2 (Z.ltb_ge (Z.of_nat (length before + length mid)) 0)) by lia.
  rewrite !Z.min_l, !Nat2Z.id by lia.
  rewrite bool_decide_eq_false_2 by lia.
  rewrite bool_decide_eq_false_2 by lia.
  assert (Hlookup : (before ++ mid ++ value :: after)
                    !! (length before + length mid)%nat = Some value).
  { rewrite app_assoc. apply list_lookup_middle. by rewrite length_app. }
  rewrite Hlookup. simpl.
  replace (length before + length mid - length before)%nat
    with (length mid) by lia.
  destruct (shift_up_loop before mid after value made Hprimitives)
    as (made1 & -> & _).
  simpl.
  destruct (Draft_assign_middle false before (mid ++ after) (hd value mid)
              made1 value) as (made2 & -> & _ & Hmade2); [by right|].
  by exists made2.
Qed.

Section AutomergeListBulk_facts.
Import AutomergeListBulk.
Variable path : list string.
Implicit Types (w : World) (array values : list JSValue) (value : JSValue).

(** The shape the methods share, when the document is initialized and the
    gate free: the change is made, and recorded when the callback has made
    an operation. *)
Lemma bulk_change_run {A} w deferred message
    (callback : JSValue * bool → Res (A * (JSValue * bool))) a doc :
  isInitialized w = true → lock_var w = true →
  callback (amDoc w, false) = Ok (a, (doc, true)) →
  waitOnAmDocInit deferred (withLock (Automerge_change message callback)) w
  = (Ok (Some (Some a)),
     {| amDoc := doc; isInitialized := true; lock_var := true;
        waiting := waiting w; changes := changes w ++ [message];
        changed := changed w |}).
Proof.
  intros Hinit Hlock Hcallback. destruct w as [doc0 ready free queue log events].
  simpl in *. subst.
  unfold waitOnAmDocInit, withLock, createLock, try_finally, Automerge_change,
    fmap, M_fmap. simpl. by rewrite Hcallback.
Qed.

Lemma bulk_change_nothing {A} w deferred message
    (callback : JSValue * bool → Res (A * (JSValue * bool))) a doc :
  isInitialized w = true → lock_var w = true →
  callback (amDoc w, false) = Ok (a, (doc, false)) →
  waitOnAmDocInit deferred (withLock (Automerge_change message callback)) w
  = (Ok (Some (Some a)), w).
Proof.
  intros Hinit Hlock Hcallback. destruct w as [doc0 ready free queue log events].
  simpl in *. subst.
  unfold waitOnAmDocInit, withLock, createLock, try_finally, Automerge_change,
    fmap, M_fmap. simpl. by rewrite Hcallback.
Qed.

Lemma bulk_change_throws {A} w deferred message
    (callback : JSValue * bool → Res (A * (JSValue * bool))) e :
  isInitialized w = true → lock_var w = true →
  callback (amDoc w, false) = Throw e →
  waitOnAmDocInit deferred (withLock (Automerge_change message callback)) w
  = (Throw e, w).
Proof.
  intros Hinit Hlock Hcallback. destruct w as [doc0 ready free queue log events].
  simpl in *. subst.
  unfold waitOnAmDocInit, withLock, createLock, try_finally, Automerge_change,
    fmap, M_fmap. simpl. by rewrite Hcallback.
Qed.

(** And otherwise: the callback is queued or dropped, and nothing else
    changes. *)
Lemma bulk_change_skipped {A} w deferred (action : M World A) :
  isInitialized w = false ∨ lock_var w = false →
  ∃ r w', waitOnAmDocInit deferred (withLock action) w = (Ok r, w')
    ∧ amDoc w' = amDoc w ∧ changes w' = changes w ∧ changed w' = changed w.
Proof.
  intros Hskip. unfold waitOnAmDocInit, withLock, createLock, fmap, M_fmap.
  destruct (isInitialized w) eqn:Hinit; [|by eexists _, _].
  destruct Hskip as [?|Hlock]; [done|]. simpl. rewrite Hlock. by eexists _, _.
Qed.

Lemma bulk_length_run w array :
  amDocPath (amDoc w) path = JArr array →
  length path w = (Ok (Z.of_nat (List.length array)), w).
Proof. intros Hlist. unfold length. by rewrite Hlist. Qed.


(** [push(value)] emits its [add] event whether or not the mutation ran:
    while the document is not initialized, or the gate is held, the tree is
    left as it was and no change is made, yet the event is emitted, with
    the index of the last element that is there. *)
Theorem list_push_event_without_mutation w array value :
  amDocPath (amDoc w) path = JArr array →
  isInitialized w = false ∨ lock_var w = false →
  ∃ w', push path value w = (Ok (Z.of_nat (List.length array)), w')
    ∧ amDoc w' = amDoc w
    ∧ changes w' = changes w
    ∧ changed w' = changed w ++
        [{| IObservableList.type := IObservableList.add;
            IObservableList.oldIndex := -1;
            IObservableList.newIndex := Z.of_nat (List.length array) - 1;
            IObservableList.oldValues := [];
            IObservableList.newValues := [value] |}].
Proof.
  intros Hlist Hskip. unfold push. rewrite bind_run.
  match goal with |- context [waitOnAmDocInit ?deferred (withLock ?action) w] =>
    destruct (bulk_change_skipped w deferred action Hskip)
      as (r & w1 & -> & Hdoc & Hlog & Hevents)
  end.
  rewrite bind_run. rewrite Hdoc, Hlist. simpl.
  rewrite bind_run, (bulk_length_run _ array) by (by rewrite Hdoc).
  rewrite bind_run. simpl. eexists. split_and!; [done..|].
  simpl. by rewrite Hevents.
Qed.

Lemma pushAll_loop doc doc1 array made values :
  list_written doc path doc1 array →
  ∃ doc2,
    foldl (λ doc value,
             '(_, doc) ← doc;
             on_list doc path (Draft_push value))
          (Ok (tt, (doc1, made))) values
    = Ok (tt, (doc2, match values with [] => made | _ => true end))
    ∧ list_written doc path doc2 (array ++ values).
Proof.
  revert doc1 array made. induction values as [|value values IH];
    intros doc1 array made Hwritten; simpl.
  - exists doc1. by rewrite app_nil_r.
  - destruct (draft_list_step doc path doc1 array made
                (Draft_push value) tt (array ++ [value]) true)
      as (doc2 & -> & Hwritten2); [done..|].
    destruct (IH doc2 (array ++ [value]) true Hwritten2)
      as (doc3 & -> & Hwritten3).
    exists doc3. rewrite <- app_assoc in Hwritten3. split; [|done].
    by destruct values.
Qed.

Lemma bulk_change_values {A} w deferred message
    (callback : JSValue * bool → Res (A * (JSValue * bool))) a doc values :
  isInitialized w = true → lock_var w = true →
  (values = [] → doc = amDoc w) →
  callback (amDoc w, false)
  = Ok (a, (doc, match values with [] => false | _ => true end)) →
  waitOnAmDocInit deferred (withLock (Automerge_change message callback)) w
  = (Ok (Some (Some a)),
     {| amDoc := doc; isInitialized := true; lock_var := true;
        waiting := waiting w; changes := recorded w message values;
        changed := changed w |}).
Proof.
  intros Hinit Hlock Hsame Hcallback. destruct values as [|value values].
  - rewrite (bulk_change_nothing w _ _ _ a doc) by done.
    rewrite Hsame by done. destruct w. simpl in *. by subst.
  - by rewrite (bulk_change_run w _ _ _ a doc) by done.
Qed.

Lemma list_pushAll_run w array values :
  amDocPath (amDoc w) path = JArr array →
  isInitialized w = true → lock_var w = true →
  ∃ doc,
    list_written (amDoc w) path doc (array ++ values)
    ∧ pushAll path values w
      = (Ok (Z.of_nat (List.length array) + Z.of_nat (List.length values)),
         {| amDoc := doc; isInitialized := true; lock_var := true;
            waiting := waiting w;
            changes := recorded w (list_pushAll path values) values;
            changed := changed w ++
              [{| IObservableList.type := IObservableList.add;
                  IObservableList.oldIndex := -1;
                  IObservableList.newIndex := Z.of_nat (List.length array);
                  IObservableList.oldValues := [];
                  IObservableList.newValues := values |}] |}).
Proof.
  intros Hlist Hinit Hlock.
  destruct (pushAll_loop (amDoc w) (amDoc w) array false values)
    as (doc & Hloop & Hwritten); [by apply list_written_start|].
  exists doc. split; [done|].
  unfold pushAll. rewrite bind_run, (bulk_length_run w array) by done.
  rewrite bind_run.
  rewrite (bulk_change_values w _ _ _ tt doc values); [|done..| |done].
  2: { intros ->. rewrite app_nil_r in Hwritten.
       by eapply list_written_same. }
  rewrite bind_run. simpl. rewrite bulk_length_run with (array := array ++ values)
    by apply Hwritten.
  by rewrite length_app, Nat2Z.inj_add.
Qed.

(** [pushAll(values)] on an initialized document with the gate free, for
    values that Automerge stores as they are given: the values are appended
    in their order, in one local change when there is a value and in none
    when there is not; the new length is returned, and one [add] event
    reports the values at the old length. *)
Theorem list_pushAll_appends w array values :
  amDocPath (amDoc w) path = JArr array →
  isInitialized w = true → lock_var w = true →
  Forall storable values →
  ∃ w', pushAll path values w
        = (Ok (Z.of_nat (List.length array) + Z.of_nat (List.length values)), w')
    ∧ amDocPath (amDoc w') path = JArr (array ++ values)
    ∧ changes w' = match values with
                   | [] => changes w
                   | _ => changes w ++ [list_pushAll path values]
                   end
    ∧ changed w' = changed w ++
        [{| IObservableList.type := IObservableList.add;
            IObservableList.oldIndex := -1;
            IObservableList.newIndex := Z.of_nat (List.length array);
            IObservableList.oldValues := [];
            IObservableList.newValues := values |}].
Proof.
  intros Hlist Hinit Hlock _.
  destruct (list_pushAll_run w array values Hlist Hinit Hlock)
    as (doc & [Hnew _] & ->).
  by eexists.
Qed.

Lemma insertAll_loop doc doc1 (before after : list JSValue) made values :
  primitives after →
  list_written doc path doc1 (before ++ after) →
  ∃ doc2,
    foldl (λ acc value,
             '(index, doc) ← acc;
             '(_, doc) ← on_list doc path (λ draft,
               draft ← ArrayExt.insert draft index value;
               Ok (tt, draft));
             Ok (index + 1, doc))
          (Ok (Z.of_nat (List.length before), (doc1, made))) values
    = Ok (Z.of_nat (List.length (before ++ values)),
          (doc2, match values with [] => made | _ => true end))
    ∧ list_written doc path doc2 (before ++ values ++ after).
Proof.
  intros Hafter. revert doc1 before made.
  induction values as [|value values IH];
    intros doc1 before made Hwritten; simpl.
  - exists doc1. by rewrite app_nil_r.
  - destruct (draft_list_step doc path doc1 (before ++ after) made
                (λ draft,
                   draft ← ArrayExt.insert draft
                             (Z.of_nat (List.length before)) value;
                   Ok (tt, draft))
                tt (before ++ [value] ++ after) true)
      as (doc2 & -> & Hwritten2); [done | by rewrite insert_run |].
    simpl. rewrite app_assoc in Hwritten2.
    replace (Z.of_nat (List.length before) + 1)
      with (Z.of_nat (List.length (before ++ [value])))
      by (rewrite length_app; simpl; lia).
    destruct (IH doc2 (before ++ [value]) true Hwritten2)
      as (doc3 & -> & Hwritten3).
    exists doc3. rewrite <- !app_assoc in *. split; [|done].
    by destruct values.
Qed.

Lemma list_insertAll_run w (before after : list JSValue) values :
  amDocPath (amDoc w) path = JArr (before ++ after) →
  isInitialized w = true → lock_var w = true →
  primitives after →
  ∃ doc,
    list_written (amDoc w) path doc (before ++ values ++ after)
    ∧ insertAll path (Z.of_nat (List.length before)) values w
      = (Ok tt,
         {| amDoc := doc; isInitialized := true; lock_var := true;
            waiting := waiting w;
            changes :=
              recorded w
                (list_insertAll path (Z.of_nat (List.length before)) values)
                values;
            changed := changed w ++
              [{| IObservableList.type := IObservableList.add;
                  IObservableList.oldIndex := -1;
                  IObservableList.newIndex := Z.of_nat (List.length before);
                  IObservableList.oldValues := [];
                  IObservableList.newValues := values |}] |}).
Proof.
  intros Hlist Hinit Hlock Hafter.
  destruct (insertAll_loop (amDoc w) (amDoc w) before after false values)
    as (doc & Hloop & Hwritten); [done | by apply list_written_start|].
  exists doc. split; [done|].
  unfold insertAll. rewrite bind_run.
  rewrite (bulk_change_values w _ _ _ tt doc values); [done..| |].
  - intros ->. simpl in Hwritten. by eapply list_written_same.
  - by rewrite Hloop.
Qed.

(** [insertAll(index, values)] for [0 <= index <= length], on an
    initialized document with the gate free, when the elements from the
    index on are not objects (Automerge refuses to assign again an object
    of the document, as the shifts would), for values that Automerge stores
    as they are given: the values are spliced in at the index, in their
    order, in one local change when there is a value and in none when there
    is not, and one [add] event reports them at the index. *)
Theorem list_insertAll_splices w array (index : nat) values :
  amDocPath (amDoc w) path = JArr array →
  isInitialized w = true → lock_var w = true →
  (index ≤ List.length array)%nat →
  primitives (drop index array) →
  Forall storable values →
  ∃ w', insertAll path (Z.of_nat index) values w = (Ok tt, w')
    ∧ amDocPath (amDoc w') path
      = JArr (take index array ++ values ++ drop index array)
    ∧ changes w' = match values with
                   | [] => changes w
                   | _ => changes w
                          ++ [list_insertAll path (Z.of_nat index) values]
                   end
    ∧ changed w' = changed w ++
        [{| IObservableList.type := IObservableList.add;
            IObservableList.oldIndex := -1;
            IObservableList.newIndex := Z.of_nat index;
            IObservableList.oldValues := [];
            IObservableList.newValues := values |}].
Proof.
  intros Hlist Hinit Hlock Hindex Hprimitives _.
  rewrite <- (take_drop index array) in Hlist.
  destruct (list_insertAll_run w _ _ values Hlist Hinit Hlock Hprimitives)
    as (doc & [Hnew _] & Hrun).
  rewrite length_take, Nat.min_l in Hrun by done. rewrite Hrun.
  by eexists.
Qed.

(** [insertAll(index, values)] with a value to insert, on an initialized
    document with the gate free, when the last element of the list is an
    object, as a cell is, and the index is before it: the first shift
    assigns that object again, which Automerge refuses; the call throws its
    [RangeError], nothing is changed nor emitted, and the gate is free
    again. *)
Theorem list_insertAll_refused w (before after : list JSValue) item value values :
  amDocPath (amDoc w) path = JArr (before ++ after ++ [item]) →
  isInitialized w = true → lock_var w = true →
  is_object item = true →
  insertAll path (Z.of_nat (List.length before)) (value :: values) w
  = (Throw RangeError, w).
Proof.
  intros Hlist Hinit Hlock Hobject.
  assert (Hinsert : ∀ made,
    ArrayExt.insert (before ++ after ++ [item], made)
      (Z.of_nat (List.length before)) value = Throw RangeError).
  { intros made. unfold ArrayExt.insert. simpl. rewrite !length_app. simpl.
    rewrite (proj2 (Z.ltb_ge (Z.of_nat (List.length before)) 0)) by lia.
    rewrite Z.min_l, Nat2Z.id by lia.
    replace (List.length before + (List.length after + 1) - List.length before)%nat
      with (S (List.length after)) by lia.
    rewrite seq_S, reverse_snoc. simpl.
    rewrite (Draft_copy_object _ _ _ _ item); [|
      replace (before ++ after ++ [item]) with ((before ++ after) ++ [item])
        by (by rewrite <- app_assoc);
      apply list_lookup_middle; rewrite length_app; lia | done].
    by induction (reverse _). }
  unfold insertAll. rewrite bind_run.
  rewrite (bulk_change_throws w _ _ _ RangeError); [done..|].
  simpl. unfold on_list at 2. simpl. unfold amDocPath in Hlist.
  rewrite Hlist. simpl. rewrite Hinsert. simpl.
  by induction values.
Qed.

(** A change followed by its event, both inside the gate, as [move] has
    them. *)
Lemma bulk_change_emit_run {A} w deferred message
    (callback : JSValue * bool → Res (A * (JSValue * bool))) event a doc :
  isInitialized w = true → lock_var w = true →
  callback (amDoc w, false) = Ok (a, (doc, true)) →
  waitOnAmDocInit deferred (withLock (
    a ← Automerge_change message callback; emit (event a))) w
  = (Ok (Some (Some tt)),
     {| amDoc := doc; isInitialized := true; lock_var := true;
        waiting := waiting w; changes := changes w ++ [message];
        changed := changed w ++ [event a] |}).
Proof.
  intros Hinit Hlock Hcallback. destruct w as [doc0 ready free queue log events].
  simpl in *. subst.
  unfold waitOnAmDocInit, withLock, createLock, try_finally, Automerge_change,
    emit, modify, mbind, M_bind, fmap, M_fmap. simpl. by rewrite Hcallback.
Qed.

(** [move(fromIndex, toIndex)] does nothing at all on a list of at most one
    element, and when the two indices are equal. *)
Theorem list_move_noop w array fromIndex toIndex :
  amDocPath (amDoc w) path = JArr array →
  (List.length array ≤ 1)%nat ∨ fromIndex = toIndex →
  move path fromIndex toIndex w = (Ok tt, w).
Proof.
  intros Hlist Hnoop. unfold move.
  rewrite bind_run, (bulk_length_run w array) by done.
  destruct Hnoop as [Hshort| ->].
  - by rewrite (proj2 (Z.leb_le _ _)) by lia.
  - by rewrite Z.eqb_refl, orb_true_r.
Qed.

(** What [ArrayExt.move] does between two indices of a list whose elements
    from the one to the other are not objects. *)
Lemma move_inside (array : list JSValue) (fromIndex toIndex : nat)
    value target made :
  array !! fromIndex = Some value →
  array !! toIndex = Some target →
  fromIndex ≠ toIndex →
  (∀ i item, (Nat.min fromIndex toIndex ≤ i ≤ Nat.max fromIndex toIndex)%nat →
             array !! i = Some item → is_object item = false) →
  ∃ array' made',
    ArrayExt.move (array, made) (Z.of_nat fromIndex) (Z.of_nat toIndex)
    = Ok (array', made')
    ∧ array' !! toIndex = Some value
    ∧ delete toIndex array' = delete fromIndex array
    ∧ (strict_equals target value = false → made' = true).
Proof.
  intros Hfrom Hto Hne Hprimitives.
  pose proof (lookup_lt_Some _ _ _ Hfrom) as Hfrom_lt.
  pose proof (lookup_lt_Some _ _ _ Hto) as Hto_lt.
  assert (Hsegment : ∀ first count,
    (Nat.min fromIndex toIndex ≤ first)%nat →
    (first + count ≤ S (Nat.max fromIndex toIndex))%nat →
    primitives (take count (drop first array))).
  { intros first count Hfirst Hcount. apply Forall_forall.
    intros item [i Hi]%list_elem_of_lookup.
    pose proof (lookup_lt_Some _ _ _ Hi) as Hlt.
    rewrite length_take in Hlt.
    rewrite lookup_take_lt, lookup_drop in Hi by lia.
    apply (Hprimitives (first + i)%nat); [lia | done]. }
  destruct (decide (fromIndex < toIndex)%nat) as [Hup|Hdown].
  - set (before := take fromIndex array).
    set (mid := take (toIndex - fromIndex) (drop (S fromIndex) array)).
    set (after := drop (S toIndex) array).
    assert (Hsplit : array = before ++ value :: mid ++ after).
    { subst before mid after.
      rewrite <- (take_drop_middle array fromIndex value Hfrom) at 1.
      do 2 f_equal.
      rewrite <- (take_drop (toIndex - fromIndex) (drop (S fromIndex) array)) at 1.
      f_equal. rewrite drop_drop. f_equal. lia. }
    assert (Hbefore : List.length before = fromIndex)
      by (subst before; rewrite length_take; lia).
    assert (Hmid : List.length mid = (toIndex - fromIndex)%nat)
      by (subst mid; rewrite length_take, length_drop; lia).
    assert (Hlast : last mid = Some target).
    { rewrite last_lookup, Hmid. subst mid.
      rewrite lookup_take_lt, lookup_drop by lia.
      rewrite <- Hto. f_equal. lia. }
    destruct (move_run_down before mid after value made)
      as (made' & Hrun & Hmade).
    { intros Hnil. by rewrite Hnil in Hlast. }
    { apply Forall_cons. split.
      - apply (Hprimitives fromIndex); [lia | done].
      - subst mid. apply Hsegment; lia. }
    rewrite Hbefore, Hmid in Hrun.
    replace (fromIndex + (toIndex - fromIndex))%nat with toIndex in Hrun by lia.
    rewrite <- Hsplit in Hrun. rewrite Hlast in Hmade. simpl in Hmade.
    exists (before ++ mid ++ value :: after), made'.
    split; [done|]. split_and!; [| |done].
    + rewrite app_assoc. apply list_lookup_middle. rewrite length_app. lia.
    + replace toIndex with (List.length (before ++ mid))
        by (rewrite length_app; lia).
      rewrite app_assoc, delete_middle, <- app_assoc.
      rewrite Hsplit, <- Hbefore. by rewrite delete_middle.
  - set (before := take toIndex array).
    set (mid := take (fromIndex - toIndex) (drop toIndex array)).
    set (after := drop (S fromIndex) array).
    assert (Hsplit : array = before ++ mid ++ value :: after).
    { subst before mid after.
      rewrite <- (take_drop toIndex array) at 1. f_equal.
      rewrite <- (take_drop (fromIndex - toIndex) (drop toIndex array)) at 1.
      f_equal. rewrite drop_drop.
      replace (toIndex + (fromIndex - toIndex))%nat with fromIndex by lia.
      by apply drop_S. }
    assert (Hbefore : List.length before = toIndex)
      by (subst before; rewrite length_take; lia).
    assert (Hmid : List.length mid = (fromIndex - toIndex)%nat)
      by (subst mid; rewrite length_take, length_drop; lia).
    assert (Hhead : head mid = Some target).
    { rewrite head_lookup. subst mid.
      rewrite lookup_take_lt, lookup_drop by lia.
      rewrite <- Hto. f_equal. lia. }
    destruct (move_run_up before mid after value made)
      as (made' & Hrun & Hmade).
    { intros Hnil. by rewrite Hnil in Hhead. }
    { apply Forall_cons. split.
      - apply (Hprimitives fromIndex); [lia | done].
      - subst mid. apply Hsegment; lia. }
    rewrite Hbefore, Hmid in Hrun.
    replace (toIndex + (fromIndex - toIndex))%nat with fromIndex in Hrun by lia.
    rewrite <- Hsplit in Hrun.
    assert (hd value mid = target) as Hhd
      by (destruct mid; simpl in *; by simplify_eq).
    rewrite Hhd in Hmade.
    exists (before ++ value :: mid ++ after), made'.
    split; [done|]. split_and!; [| |done].
    + by apply list_lookup_middle.
    + rewrite <- Hbefore at 1. rewrite delete_middle.
      replace fromIndex with (List.length (before ++ mid))
        by (rewrite length_app; lia).
      rewrite Hsplit, (app_assoc before mid (value :: after)), delete_middle.
      by rewrite <- app_assoc.
Qed.

(** [move(fromIndex, toIndex)] for two different indices of the list, on an
    initialized document with the gate free, when the elements from the one
    index to the other are not objects (Automerge refuses to assign again
    an object of the document, as the shifts would) and the value moved is
    not the one at [toIndex] already: the value is found at [toIndex]
    afterwards, the other values keep their order, one local change is
    made, and one [move] event carries the value. *)
Theorem list_move_moves w array (fromIndex toIndex : nat) value target :
  amDocPath (amDoc w) path = JArr array →
  isInitialized w = true → lock_var w = true →
  array !! fromIndex = Some value →
  array !! toIndex = Some target →
  fromIndex ≠ toIndex →
  (∀ i item, (Nat.min fromIndex toIndex ≤ i ≤ Nat.max fromIndex toIndex)%nat →
             array !! i = Some item → is_object item = false) →
  strict_equals target value = false →
  ∃ w' array',
    move path (Z.of_nat fromIndex) (Z.of_nat toIndex) w = (Ok tt, w')
    ∧ amDocPath (amDoc w') path = JArr array'
    ∧ array' !! toIndex = Some value
    ∧ delete toIndex array' = delete fromIndex array
    ∧ changes w' = changes w
        ++ [list_move path (Z.of_nat fromIndex) (Z.of_nat toIndex)]
    ∧ changed w' = changed w ++
        [{| IObservableList.type := IObservableList.move;
            IObservableList.oldIndex := Z.of_nat fromIndex;
            IObservableList.newIndex := Z.of_nat toIndex;
            IObservableList.oldValues := [value];
            IObservableList.newValues := [value] |}].
Proof.
  intros Hlist Hinit Hlock Hfrom Hto Hne Hprimitives Hdiffer.
  pose proof (lookup_lt_Some _ _ _ Hfrom) as Hfrom_lt.
  pose proof (lookup_lt_Some _ _ _ Hto) as Hto_lt.
  destruct (move_inside array fromIndex toIndex value target false
              Hfrom Hto Hne Hprimitives)
    as (array' & made' & Hmove & Hlookup & Hrest & Hmade).
  rewrite (Hmade Hdiffer) in Hmove.
  destruct (draft_list_step (amDoc w) path (amDoc w) array false
              (λ draft,
                 let values := [Array_get draft.1 (Z.of_nat fromIndex)] in
                 draft ← ArrayExt.move draft (Z.of_nat fromIndex)
                           (Z.of_nat toIndex);
                 Ok (values, draft))
              [value] array' true)
    as (doc & Hrun & Hnew & _); [by apply list_written_start| |].
  { simpl. rewrite Hmove. simpl. unfold Array_get.
    rewrite (proj2 (Z.ltb_ge _ _)) by lia. by rewrite Nat2Z.id, Hfrom. }
  unfold move. rewrite bind_run, (bulk_length_run w array) by done.
  rewrite (proj2 (Z.leb_gt _ _)), (proj2 (Z.eqb_neq _ _)) by lia. simpl.
  rewrite bind_run.
  rewrite (bulk_change_emit_run w _ _ _
             (λ values, {| IObservableList.type := IObservableList.move;
                           IObservableList.oldIndex := Z.of_nat fromIndex;
                           IObservableList.newIndex := Z.of_nat toIndex;
                           IObservableList.oldValues := values;
                           IObservableList.newValues := values |})
             [value] doc) by done.
  by eexists _, _.
Qed.

Lemma Draft_assign_throws fresh draft index value e :
  Draft_assign fresh draft index value = Throw e → e = RangeError.
Proof.
  unfold Draft_assign. destruct (negb fresh && is_object value); [congruence|].
  destruct (draft.1 !! index); [by destruct (strict_equals _ _)|].
  case_bool_decide; congruence.
Qed.

Lemma Draft_copies_throw (source : nat → nat) (indices : list nat)
    (start : Res (list JSValue * bool)) e :
  (∀ e, start = Throw e → e = RangeError) →
  foldl (λ draft i, draft ← draft; Draft_copy draft i (source i)) start indices
  = Throw e →
  e = RangeError.
Proof.
  revert start. induction indices as [|i indices IH]; intros start Hstart;
    simpl; [apply Hstart|].
  apply IH. intros e'. destruct start as [draft|e0]; simpl.
  - apply Draft_assign_throws.
  - apply Hstart.
Qed.

(** [move(fromIndex, toIndex)] of a value that is an object, as a cell is,
    between two different indices of the list, on an initialized document
    with the gate free: Automerge refuses to assign again an object of the
    document; the call throws its [RangeError], nothing is changed nor
    emitted, and the gate is free again. *)
Theorem list_move_refused w array (fromIndex toIndex : nat) value :
  amDocPath (amDoc w) path = JArr array →
  isInitialized w = true → lock_var w = true →
  array !! fromIndex = Some value →
  (toIndex < List.length array)%nat →
  fromIndex ≠ toIndex →
  is_object value = true →
  move path (Z.of_nat fromIndex) (Z.of_nat toIndex) w = (Throw RangeError, w).
Proof.
  intros Hlist Hinit Hlock Hfrom Hto Hne Hobject.
  pose proof (lookup_lt_Some _ _ _ Hfrom) as Hfrom_lt.
  assert (Hmove : ∀ made,
    ArrayExt.move (array, made) (Z.of_nat fromIndex) (Z.of_nat toIndex)
    = Throw RangeError).
  { intros made. unfold ArrayExt.move. simpl.
    rewrite (proj2 (Z.leb_gt _ _)) by lia.
    rewrite (proj2 (Z.ltb_ge (Z.of_nat fromIndex) 0)) by lia.
    rewrite (proj2 (Z.ltb_ge (Z.of_nat toIndex) 0)) by lia.
    rewrite !Z.min_l, !Nat2Z.id by lia.
    rewrite bool_decide_eq_false_2 by done. rewrite Hfrom. simpl.
    match goal with |- ?loop ≫= _ = _ => destruct loop as [draft|e] eqn:Hloop end.
    - simpl. unfold Draft_assign. by rewrite Hobject.
    - simpl. f_equal. revert Hloop. case_bool_decide.
      + by apply (Draft_copies_throw S).
      + by apply (Draft_copies_throw pred). }
  unfold move. rewrite bind_run, (bulk_length_run w array) by done.
  rewrite (proj2 (Z.leb_gt _ _)), (proj2 (Z.eqb_neq _ _)) by lia. simpl.
  rewrite bind_run.
  destruct w as [doc0 ready free queue log events]. simpl in *. subst.
  unfold waitOnAmDocInit, withLock, createLock, try_finally, Automerge_change,
    mbind, M_bind, fmap, M_fmap. simpl.
  unfold on_list. simpl. unfold amDocPath in Hlist. rewrite Hlist. simpl.
  unfold mbind, Res_bind. by rewrite Hmove.
Qed.

(** Unlike the other methods, [move] emits its event inside the gate: before
    initialization, or with the gate held, it emits nothing, makes no local
    change and leaves the document tree as it was. *)
Theorem list_move_skipped w array fromIndex toIndex :
  amDocPath (amDoc w) path = JArr array →
  isInitialized w = false ∨ lock_var w = false →
  ∃ w', move path fromIndex toIndex w = (Ok tt, w')
    ∧ amDoc w' = amDoc w ∧ changes w' = changes w ∧ changed w' = changed w.
Proof.
  intros Hlist Hskip. unfold move.
  rewrite bind_run, (bulk_length_run w array) by done.
  destruct (_ || _); [by eexists|].
  rewrite bind_run.
  match goal with
  | |- context [waitOnAmDocInit ?deferred (withLock ?action) w] =>
    destruct (bulk_change_skipped w deferred action Hskip)
      as (r & w' & -> & Hdoc & Hchanges & Hchanged)
  end.
  by exists w'.
Qed.

End AutomergeListBulk_facts.

Lemma two_cells_bulk_list ready free :
  amDocPath (AutomergeListBulk.amDoc (two_cells_bulk ready free)) ["cells"]
  = JArr [JNum 1; JNum 2].
Proof. unfold amDocPath. simpl. by rewrite lookup_singleton_eq. Qed.


Lemma list_push_event_without_mutation_witness :
  ∃ w', AutomergeListBulk.push ["cells"] (JNum 3) (two_cells_bulk false true)
        = (Ok 2, w')
    ∧ AutomergeListBulk.amDoc w'
      = AutomergeListBulk.amDoc (two_cells_bulk false true)
    ∧ length (AutomergeListBulk.changed w') = 1%nat.
Proof.
  destruct (list_push_event_without_mutation ["cells"]
              (two_cells_bulk false true) [JNum 1; JNum 2] (JNum 3)
              (two_cells_bulk_list _ _) (or_introl eq_refl))
    as (w' & Hrun & Hdoc & _ & Hchanged).
  exists w'. by rewrite Hchanged.
Defined.

Lemma list_pushAll_appends_witness :
  ∃ w', AutomergeListBulk.pushAll ["cells"] [JNum 3; JNum 4]
          (two_cells_bulk true true)
        = (Ok 4, w')
    ∧ amDocPath (AutomergeListBulk.amDoc w') ["cells"]
      = JArr [JNum 1; JNum 2; JNum 3; JNum 4].
Proof.
  destruct (list_pushAll_appends ["cells"] (two_cells_bulk true true)
              [JNum 1; JNum 2] [JNum 3; JNum 4] (two_cells_bulk_list _ _)
              eq_refl eq_refl)
    as (w' & Hrun & Hnew & _); [by repeat constructor|].
  by exists w'.
Defined.

Lemma list_insertAll_splices_witness :
  ∃ w', AutomergeListBulk.insertAll ["cells"] 1 [JNum 3; JNum 4]
          (two_cells_bulk true true)
        = (Ok tt, w')
    ∧ amDocPath (AutomergeListBulk.amDoc w') ["cells"]
      = JArr [JNum 1; JNum 3; JNum 4; JNum 2].
Proof.
  destruct (list_insertAll_splices ["cells"] (two_cells_bulk true true)
              [JNum 1; JNum 2] 1 [JNum 3; JNum 4] (two_cells_bulk_list _ _)
              eq_refl eq_refl)
    as (w' & Hrun & Hnew & _);
    [simpl; lia | by repeat constructor | by repeat constructor |].
  by exists w'.
Defined.

Lemma object_cells_list :
  amDocPath (AutomergeListBulk.amDoc object_cells) ["cells"]
  = JArr ([] ++ [JObj {["id" := JNum 1]}] ++ [JObj {["id" := JNum 2]}]).
Proof. unfold amDocPath. simpl. by rewrite lookup_singleton_eq. Qed.

Lemma list_insertAll_refused_witness :
  AutomergeListBulk.insertAll ["cells"] 0 [JObj {["id" := JNum 3]}] object_cells
  = (Throw RangeError, object_cells).
Proof.
  exact (list_insertAll_refused ["cells"] object_cells []
           [JObj {["id" := JNum 1]}] (JObj {["id" := JNum 2]})
           (JObj {["id" := JNum 3]}) [] object_cells_list
           eq_refl eq_refl eq_refl).
Defined.

Lemma list_move_refused_witness :
  AutomergeListBulk.move ["cells"] 0 1 object_cells
  = (Throw RangeError, object_cells).
Proof.
  exact (list_move_refused ["cells"] object_cells
           [JObj {["id" := JNum 1]}; JObj {["id" := JNum 2]}] 0 1
           (JObj {["id" := JNum 1]}) object_cells_list
           eq_refl eq_refl eq_refl ltac:(simpl; lia) ltac:(lia) eq_refl).
Defined.

Lemma list_move_noop_witness :
  AutomergeListBulk.move ["cells"] 1 1 (two_cells_bulk true true)
  = (Ok tt, two_cells_bulk true true).
Proof.
  exact (list_move_noop ["cells"] (two_cells_bulk true true)
           [JNum 1; JNum 2] 1 1 (two_cells_bulk_list _ _) (or_intror eq_refl)).
Defined.

Lemma list_move_moves_witness :
  ∃ w', AutomergeListBulk.move ["cells"] 0 1 (two_cells_bulk true true)
        = (Ok tt, w')
    ∧ amDocPath (AutomergeListBulk.amDoc w') ["cells"]
      = JArr [JNum 2; JNum 1].
Proof.
  destruct (list_move_moves ["cells"] (two_cells_bulk true true)
              [JNum 1; JNum 2] 0 1 (JNum 1) (JNum 2) (two_cells_bulk_list _ _)
              eq_refl eq_refl eq_refl eq_refl)
    as (w' & array' & Hrun & Hnew & Hto & Hrest & _); [lia | | done |].
  { intros [|[|i]] item _ Hitem; simpl in Hitem; by simplify_eq. }
  exists w'. split; [done|]. rewrite Hnew. f_equal.
  destruct array' as [|first [|second array']]; simpl in *; by simplify_eq.
Defined.

Lemma list_move_skipped_witness :
  ∃ w', AutomergeListBulk.move ["cells"] 0 1 (two_cells_bulk true false)
        = (Ok tt, w')
    ∧ AutomergeListBulk.changed w' = [].
Proof.
  destruct (list_move_skipped ["cells"] (two_cells_bulk true false)
              [JNum 1; JNum 2] 0 1 (two_cells_bulk_list _ _)
              (or_intror eq_refl))
    as (w' & Hrun & _ & _ & Hchanged).
  by exists w'.
Defined.

(** ** The listener for remote changes: what it keeps, and what it drops *)

Section listener_invariants.
Import AutomergeModelDB.
Variable A : AutomergeLib.
Variable actorId : string.
Implicit Types (st : State A).

Lemma only_adds_refl st : only_adds st st.
Proof. by split_and!. Qed.

Lemma only_adds_trans st1 st2 st3 :
  only_adds st1 st2 → only_adds st2 st3 → only_adds st1 st3.
Proof.
  intros (Hc1 & Hs1 & Hdb1 & Hi1) (Hc2 & Hs2 & Hdb2 & Hi2). split_and!.
  - auto.
  - by etrans.
  - congruence.
  - intros Hinit. destruct (Hi1 Hinit) as [Hinit2 Hobs].
    destruct (Hi2 Hinit2) as [Hinit3 Hobs3]. split; congruence.
Qed.

(** An action that only adds, from every state and whatever its outcome. *)
Definition adds {B} (m : M (State A) B) : Prop := ∀ st, only_adds st (m st).2.

Lemma adds_bind {B C} (m : M (State A) B) (k : B → M (State A) C) :
  adds m → (∀ b, adds (k b)) → adds (m ≫= k).
Proof.
  intros Hm Hk st. rewrite bind_run. specialize (Hm st).
  destruct (m st) as [[b|e] st1]; simpl in *; [|done].
  eapply only_adds_trans; [done | apply Hk].
Qed.

Lemma adds_ret {B} (b : B) : adds (mret b).
Proof. intros st. apply only_adds_refl. Qed.

Lemma adds_gets {B} (f : State A → B) : adds (gets f).
Proof. intros st. apply only_adds_refl. Qed.

Lemma adds_Automerge_change message callback :
  adds (Automerge_change A message callback).
Proof.
  intros st. unfold Automerge_change.
  destruct (change A (amDoc st) message callback); simpl;
    [|apply only_adds_refl].
  split_and!; simpl; try done. by apply prefix_app_r.
Qed.

Lemma adds_register uuid : adds (register A uuid).
Proof.
  intros st. unfold register.
  destruct (collaborators st !! uuid) eqn:Hknown; simpl; [apply only_adds_refl|].
  split_and!; simpl; try done.
  intros uuid' collaborator Hother. rewrite lookup_insert_ne; [done|].
  intros ->. by rewrite Hknown in Hother.
Qed.

Lemma adds_register_all uuids : adds (register_all A uuids).
Proof.
  induction uuids as [|uuid uuids IH]; simpl; [apply adds_ret|].
  apply adds_bind; [apply adds_register | done].
Qed.

Lemma adds_initialize : adds (initialize A).
Proof.
  intros st. unfold initialize.
  destruct (isInitialized st) eqn:Hinit; simpl; [apply only_adds_refl|].
  split_and!; simpl; try done. by rewrite Hinit.
Qed.

Lemma adds_after_applyChanges : adds (after_applyChanges A actorId).
Proof.
  unfold after_applyChanges.
  apply adds_bind; [|intros _; apply adds_bind; [|intros _; apply adds_bind]].
  - unfold ensure_users. apply adds_bind; [apply adds_gets|].
    intros users. destruct (truthy users);
      [apply adds_ret | apply adds_Automerge_change].
  - unfold ensure_actor. apply adds_bind; [intros st; apply only_adds_refl|].
    intros mine. destruct (truthy mine);
      [apply adds_ret | apply adds_Automerge_change].
  - unfold register_users. apply adds_bind; [apply adds_gets|].
    intros uuids. apply adds_register_all.
  - intros _. apply adds_initialize.
Qed.

Lemma adds_merge changes : adds (merge A actorId changes).
Proof.
  unfold merge.
  apply adds_bind; [|intros _; apply adds_bind].
  - intros st. rewrite adopt_owner_state. apply only_adds_refl.
  - intros st. unfold apply_remote.
    destruct (applyChanges A (amDoc st) [changes]); simpl; by split_and!.
  - intros _. apply adds_after_applyChanges.
Qed.

(** Every message, whatever the library does with it and whether the
    handling ends or throws: the listener leaves the gate as it found it,
    keeps every collaborator it knew, keeps the arrays of changes to send
    and adds at their end, and does not initialize the adapters twice. *)
Theorem listener_only_adds (message_data : option (list byte)) st :
  let st' := (onmessage A actorId message_data st).2 in
  lock_var st' = lock_var st ∧ only_adds st st'.
Proof.
  destruct message_data as [data|]; cbv zeta;
    [|split; [done | apply only_adds_refl]].
  rewrite onmessage_state. destruct (lock_var st) eqn:Hlock.
  - rewrite (createLock_free _ None st) by done. cbn [snd]. split; [done|].
    pose proof (adds_merge data (set_lock false st)) as Hadds.
    destruct (merge A actorId data (set_lock false st)) as [r st1].
    exact Hadds.
  - rewrite (createLock_held _ None st) by done. simpl.
    split; [done | apply only_adds_refl].
Qed.

(** A message that arrives while the gate is held is dropped: it is not
    applied, not queued, and the listener returns normally. *)
Theorem listener_drops_while_held (message_data : option (list byte)) st :
  lock_var st = false →
  onmessage A actorId message_data st = (Ok tt, st).
Proof.
  intros Hheld. destruct message_data as [data|]; [|done].
  unfold onmessage. rewrite bind_run.
  by rewrite (createLock_held _ None st) by done.
Qed.

End listener_invariants.

Section listener_success.
Import AutomergeModelDB.
Variable A : AutomergeLib.
Hypothesis contract : AutomergeContract A.
Variable actorId : string.
Implicit Types (st : State A).

Lemma register_all_adapters (uuids : list string) st :
  db (register_all A uuids st).2 = db st
  ∧ observing (register_all A uuids st).2 = observing st.
Proof.
  revert st. induction uuids as [|uuid uuids IH]; intros st; [done|].
  simpl. rewrite !bind_run. unfold register.
  destruct (collaborators st !! uuid); [apply IH|].
  match goal with |- context [register_all A uuids ?st0] =>
    by destruct (IH st0) as [-> ->]
  end.
Qed.

Lemma after_applyChanges_ok st st1 :
  after_applyChanges A actorId st = (Ok tt, st1) →
  settled A actorId st1
  ∧ observing st1
    = if isInitialized st then observing st
      else observing st ++ (filter (λ entry, entry.2 = true) (db st)).*1.
Proof.
  unfold after_applyChanges. rewrite bind_run.
  destruct (ensure_users_run A contract st)
    as (st_a & -> & Husers & _ & Hinit_a & _ & Hdb_a & Hobs_a & _).
  rewrite bind_run.
  destruct (ensure_actor_run A contract actorId st_a Husers)
    as [[_ [e ->]] | (st_b & users & -> & Hprop & Hmine & _ & Hinit_b & _
                       & Hdb_b & Hobs_b & _)]; [done|].
  rewrite bind_run. unfold register_users at 1. rewrite bind_run. simpl.
  rewrite Hprop. simpl.
  destruct (register_all_adapters (Object_keys users) st_b) as [Hdb_c Hobs_c].
  destruct (register_all_run A (Object_keys users) st_b)
    as (st_c & Hrun & Hdoc & _ & Hinit_c & Hall & _).
  rewrite Hrun in Hdb_c, Hobs_c. rewrite Hrun. simpl in Hdb_c, Hobs_c.
  assert (Hinit : isInitialized st_c = isInitialized st) by congruence.
  assert (Hdb : db st_c = db st) by congruence.
  assert (Hobs : observing st_c = observing st) by congruence.
  unfold initialize. rewrite Hinit.
  destruct (isInitialized st) eqn:Hready; intros [= <-].
  - split; [|done]. exists users. by rewrite Hdoc.
  - split; [|simpl; by rewrite Hdb, Hobs]. exists users. simpl. by rewrite Hdoc.
Qed.

(** A message handled to its end with the gate free leaves the replica
    settled: [users] is an object that holds the actor, every user is a
    known collaborator, and the adapters are initialized, [observeRemotes]
    having been called, on the first such message only, for the values of
    [_db] that have it. *)
Theorem listener_success_settles (data : list byte) st st' :
  lock_var st = true →
  onmessage A actorId (Some data) st = (Ok tt, st') →
  settled A actorId st'
  ∧ lock_var st' = true
  ∧ observing st'
    = if isInitialized st then observing st
      else observing st ++ (filter (λ entry, entry.2 = true) (db st)).*1.
Proof.
  intros Hfree. unfold onmessage. rewrite bind_run.
  rewrite (createLock_free _ None st) by done.
  destruct (merge A actorId data (set_lock false st)) as [[[]|e] st1] eqn:Hrun;
    simpl; [|done].
  intros [= <-]. revert Hrun. unfold merge. rewrite bind_run.
  pose proof (adopt_owner_state A (set_lock false st)) as Howner.
  destruct (adopt_owner A (set_lock false st)) as [[[]|e] st_o]; [|done].
  simpl in Howner. subst st_o. rewrite bind_run. unfold apply_remote at 1.
  simpl. destruct (applyChanges A (amDoc st) [data]) as [doc|e]; [|done].
  intros Htail. apply after_applyChanges_ok in Htail as [Hsettled Hobs].
  split; [|by split].
  destruct Hsettled as (users & Husers & Hmine & Hknown & Hinit).
  by exists users.
Qed.

End listener_success.

Definition toy_replica (free : bool) : AutomergeModelDB.State ToyAutomerge :=
  {| AutomergeModelDB.amDoc :=
       ({| toy_tree := ∅; toy_history := [] |} : Doc ToyAutomerge);
     AutomergeModelDB.lock_var := free;
     AutomergeModelDB.isInitialized := false;
     AutomergeModelDB.collaborators := ∅;
     AutomergeModelDB.db := [("cells", true); ("value", false)];
     AutomergeModelDB.observing := [];
     AutomergeModelDB.sending := [];
     AutomergeModelDB.random := [3%nat] |}.

Lemma listener_drops_while_held_witness :
  AutomergeModelDB.onmessage ToyAutomerge "ab12" (Some [x78; x01])
    (toy_replica false)
  = (Ok tt, toy_replica false).
Proof.
  exact (listener_drops_while_held ToyAutomerge "ab12" (Some [x78; x01])
           (toy_replica false) eq_refl).
Defined.

Lemma listener_success_settles_witness :
  ∃ st', AutomergeModelDB.onmessage ToyAutomerge "ab12" (Some [x78; x01])
           (toy_replica true) = (Ok tt, st')
    ∧ AutomergeModelDB.settled ToyAutomerge "ab12" st'
    ∧ AutomergeModelDB.observing st' = ["cells"].
Proof.
  destruct (AutomergeModelDB.onmessage ToyAutomerge "ab12" (Some [x78; x01])
              (toy_replica true)) as [r st'] eqn:Hrun.
  assert (Hok : r = Ok tt).
  { apply (f_equal fst) in Hrun. vm_compute in Hrun. by rewrite <- Hrun. }
  subst r.
  destruct (listener_success_settles ToyAutomerge ToyAutomerge_contract "ab12"
              [x78; x01] (toy_replica true) st' eq_refl Hrun)
    as (Hsettled & _ & Hobs).
  exists st'. by split_and!.
Defined.

(** ** Paths of the database and of its views *)


Lemma append_assoc (first second third : string) :
  (first +:+ second) +:+ third = first +:+ (second +:+ third).
Proof.
  induction first as [|c first IH]; [done|].
  change (String c ((first +:+ second) +:+ third)
          = String c (first +:+ second +:+ third)).
  by f_equal.
Qed.



Section paths_facts.
Context {DB V : Type} `{PathStoreLaws DB V}.


End paths_facts.

(** Two views do not keep their entries apart: the view at [a_b] finds
    under [c] what the view at [a] finds under [b_c]. *)
Theorem views_share_entries {DB V : Type} `{PathStore DB V}
    (a b c basePath : string) (db : DB) :
  a ≠ "" →
  (AutomergeModelDBView.get (a +:+ "_" +:+ b) basePath c db : option V)
  = AutomergeModelDBView.get a basePath (b +:+ "_" +:+ c) db.
Proof.
  intros Ha. unfold AutomergeModelDBView.get. f_equal.
  unfold AutomergeModelDBView._viewedPath.
  rewrite (bool_decide_eq_false_2 (a = "")) by done.
  rewrite bool_decide_eq_false_2 by (by destruct a).
  by rewrite !append_assoc.
Qed.



Lemma views_share_entries_witness :
  (AutomergeModelDBView.get "a_b" "" "c"
     ({["a_b_c" := 1%nat]} : gmap string nat) : option nat)
  = AutomergeModelDBView.get "a" "" "b_c" {["a_b_c" := 1%nat]}.
Proof.
  exact (views_share_entries "a" "b" "c" "" {["a_b_c" := 1%nat]}
           ltac:(discriminate)).
Defined.

(** ** [AutomergeString]: the observer of remote changes *)

Section AutomergeString_observer.
Import AutomergeString.

Lemma on_edit_run propsMap edit st :
  ∃ events,
    on_edit propsMap edit st
    = (Ok tt, {| amModel_text := amModel_text st;
                 changed := changed st ++ events |})
    ∧ Forall spans_value events
    ∧ (length events ≤ 1)%nat.
Proof.
  unfold on_edit.
  destruct (action edit); [destruct (mjoin _) as [[|unit units]|]|..].
  all: try (exists []; split; [destruct st; simpl; by rewrite app_nil_r|];
            split; [constructor | simpl; lia]).
  all: eexists [_]; split; [done|]; split; [|simpl; lia].
  all: constructor; [|constructor].
  all: split_and!; try done.
  all: by destruct (mjoin _) as [[|unit' units']|].
Qed.

Lemma on_edits_run propsMap edits st :
  ∃ events,
    on_edits propsMap edits st
    = (Ok tt, {| amModel_text := amModel_text st;
                 changed := changed st ++ events |})
    ∧ Forall spans_value events
    ∧ (length events ≤ length edits)%nat.
Proof.
  revert st. induction edits as [|edit edits IH]; intros st; simpl.
  - exists []. split; [destruct st; simpl; by rewrite app_nil_r|].
    split; [constructor | done].
  - rewrite bind_run.
    destruct (on_edit_run propsMap edit st) as (first & -> & Hfirst & Hone).
    match goal with |- context [on_edits propsMap edits ?st1] =>
      destruct (IH st1) as (rest & -> & Hrest & Hlen)
    end.
    simpl. exists (first ++ rest). rewrite app_assoc. split; [done|].
    split; [by apply Forall_app | rewrite length_app; lia].
Qed.

(** The observer of remote changes, on every diff and whether it returns or
    throws: it leaves the document alone, it emits nothing for a local
    change, and every event it emits is an insertion or a removal that
    spans its value, of one code unit at least. *)
Theorem observer_events local diff_props_text st :
  ∃ r events,
    observer local diff_props_text st
    = (r, {| amModel_text := amModel_text st;
             changed := changed st ++ events |})
    ∧ Forall spans_value events
    ∧ (local = false ∨ events = []).
Proof.
  assert (Hnothing : ∀ r : Res unit, ∃ r' events,
    (r, st) = (r', {| amModel_text := amModel_text st;
                     changed := changed st ++ events |})
    ∧ Forall spans_value events ∧ (local = false ∨ events = [])).
  { intros r. exists r, []. destruct st; simpl. rewrite app_nil_r.
    split; [done|]. split; [constructor | by right]. }
  unfold observer. destruct local; simpl; [apply Hnothing|].
  destruct diff_props_text as [[|[opId ad] text_diff]|]; try apply Hnothing.
  destruct (edits ad) as [edits|]; [|apply Hnothing].
  destruct (props ad) as [props|]; [|apply Hnothing].
  rewrite bind_run.
  destruct (propsMap_of props) as [propsMap|e]; [|apply Hnothing].
  destruct (on_edits_run propsMap edits st) as (events & -> & Hevents & _).
  exists (Ok tt), events. split; [done|]. split; [done | by left].
Qed.

End AutomergeString_observer.
